(** * Deferred real option by least-squares Monte Carlo

    Shallow embedding of [real_options_v1.py]: the script simulates price
    and operating-cost paths, builds after-tax cash flows, regresses the
    continuation value on the state at the decision date and reports the
    expected NPV with and without the option to sell.

    Numbers.  The script computes in IEEE doubles; the embedding computes
    in the real numbers (exact arithmetic).  Where numpy would leave the
    finite reals (logarithm of a non-positive number) the embedding stops
    with [NotFinite] and follows the computation no further.

    Integers.  [T] and [n_sim] are natural numbers: a negative value makes
    [np.logspace] / [np.ones] raise before anything is computed.  [buy_year]
    is an integer used as a Python index, so it is a [Z] and negative
    values count from the end.

    Outside the repository.  Three things the script takes from numpy and
    scikit-learn are parameters of the development: the stream of standard
    normal variates of [np.random.RandomState(seed)], the contents of the
    memory returned by [np.empty], and the least-squares solver used by
    [LinearRegression] on the centred data. *)

From Stdlib Require Import QArith Qreals Reals Lra Lia List ZArith Arith.
Import ListNotations.
Open Scope R_scope.

(** ** Failures *)

Inductive error : Set :=
| ValueError          (* negative dimension; regression on zero samples *)
| IndexError          (* column index out of bounds *)
| ZeroDivisionError   (* 0.0 raised to a negative power *)
| NotFinite.          (* nan or inf produced by np.log *)

Inductive result (A : Type) : Type :=
| Ok (a : A)
| Err (e : error).
Arguments Ok {A} a.
Arguments Err {A} e.

Definition bind {A B} (c : result A) (k : A -> result B) : result B :=
  match c with
  | Ok a => k a
  | Err e => Err e
  end.

Notation "x <- c ;; k" := (bind c (fun x => k))
  (at level 61, c at next level, right associativity).
Notation "' p <- c ;; k" := (bind c (fun x => let p := x in k))
  (at level 61, p pattern, c at next level, right associativity).

Fixpoint mapM {A B} (f : A -> result B) (l : list A) : result (list B) :=
  match l with
  | [] => Ok []
  | a :: l' => b <- f a ;; bs <- mapM f l' ;; Ok (b :: bs)
  end.

(** ** Arrays *)

Definition vector := list R.
(** A two-dimensional array is the list of its rows: [nth t (nth i m [])]
    is numpy's [m[i, t]]. *)
Definition matrix := list (list R).

Definition entry (m : matrix) (i t : nat) : R := nth t (nth i m []) 0.

Fixpoint zip_with {A B C} (f : A -> B -> C) (l : list A) (l' : list B)
  : list C :=
  match l, l' with
  | a :: k, b :: k' => f a b :: zip_with f k k'
  | _, _ => []
  end.

(** [m[:, t]] *)
Definition col (t : nat) (m : matrix) : vector :=
  map (fun row => nth t row 0) m.

Fixpoint set_nth (t : nat) (x : R) (row : list R) : list R :=
  match row, t with
  | [], _ => []
  | _ :: k, O => x :: k
  | a :: k, S t' => a :: set_nth t' x k
  end.

(** [m[:, t] = v] *)
Definition set_col (t : nat) (v : vector) (m : matrix) : matrix :=
  zip_with (fun row x => set_nth t x row) m v.

(** Every entry strictly positive. *)
Definition all_pos (v : vector) : Prop := Forall (fun o => 0 < o) v.

(** [v.sum()] and [v.mean(axis=0)] of a one-dimensional array.  numpy's
    mean of an empty array is nan; the script takes means only after the
    regression has accepted its [n_sim >= 1] samples. *)
Definition rsum (v : vector) : R := fold_right Rplus 0 v.
Definition mean (v : vector) : R := rsum v / INR (length v).

(** The sum of [f t] over the periods [lo <= t < lo + k], used to state
    what the array expressions compute. *)
Fixpoint sigma (f : nat -> R) (lo k : nat) : R :=
  match k with
  | O => 0
  | S k' => f lo + sigma f (S lo) k'
  end.

(** The mean over the simulations [0 <= i < n] of [f i]. *)
Definition average (n : nat) (f : nat -> R) : R := sigma f 0 n / INR n.

(** Discounted cash flow of simulation [s] over the periods
    [lo <= t < lo + k]. *)
Definition pv (a : matrix) (dis : vector) (s lo k : nat) : R :=
  sigma (fun t => entry a s t * nth t dis 0) lo k.

(** Elementwise operations on arrays of one shape, and of a matrix with a
    row vector broadcast along the rows.  Every use below is on operands
    whose shapes agree by construction (see [simulate_spec]). *)
Definition mat_zip (f : R -> R -> R) (a b : matrix) : matrix :=
  zip_with (zip_with f) a b.
Definition mat_row (f : R -> R -> R) (a : matrix) (v : vector) : matrix :=
  map (fun row => zip_with f row v) a.
Definition mat_map (f : R -> R) (a : matrix) : matrix := map (map f) a.

(** An [n] by [w] array. *)
Definition shape (n w : nat) (m : matrix) : Prop :=
  length m = n /\ Forall (fun row => length row = w) m.

(** ** Python and numpy primitives *)

Module Py.

(** Resolution of an integer index against an axis of size [n]. *)
Definition index (n : nat) (b : Z) : result nat :=
  if (0 <=? b)%Z then
    if (b <? Z.of_nat n)%Z then Ok (Z.to_nat b) else Err IndexError
  else
    if (0 <=? Z.of_nat n + b)%Z then Ok (Z.to_nat (Z.of_nat n + b))
    else Err IndexError.

(** Resolution of a slice bound: clipped, never an error. *)
Definition bound (n : nat) (b : Z) : nat :=
  if (0 <=? b)%Z then Nat.min (Z.to_nat b) n
  else Z.to_nat (Z.max 0 (Z.of_nat n + b)).

(** [v[b:]] and [v[:b]] *)
Definition slice_from (b : Z) (v : vector) : vector :=
  skipn (bound (length v) b) v.
Definition slice_to (b : Z) (v : vector) : vector :=
  firstn (bound (length v) b) v.

(** [x ** z] for a float [x] and an integer [z]. *)
Definition pow (x : R) (z : Z) : result R :=
  if (z <? 0)%Z then
    if Req_dec_T x 0 then Err ZeroDivisionError else Ok (powerRZ x z)
  else Ok (powerRZ x z).

End Py.

Module Np.

(** [np.log]: nan below zero and -inf at zero. *)
Definition log (x : R) : result R :=
  if Rlt_dec 0 x then Ok (ln x) else Err NotFinite.

(** [np.linspace(start, stop, num)] *)
Definition linspace (start stop : R) (num : nat) : vector :=
  map (fun i => start + INR i * ((stop - start) / INR (num - 1)))
      (seq 0 num).

(** [np.logspace(start, stop, num)], base 10. *)
Definition logspace (start stop : R) (num : nat) : vector :=
  map (Rpower 10) (linspace start stop num).

(** [np.zeros(T - len)]: a negative length is refused. *)
Definition zeros (n : Z) : result vector :=
  if (n <? 0)%Z then Err ValueError else Ok (repeat 0 (Z.to_nat n)).

(** The generator: the stream of standard normal variates fixed by the
    seed, and the number of variates handed out so far. *)
Record RandomState : Type := {
  normals : nat -> R;
  consumed : nat
}.

(** [rng.randn(n)] *)
Definition randn (n : nat) (rng : RandomState) : vector * RandomState :=
  (map (normals rng) (seq (consumed rng) n),
   {| normals := normals rng; consumed := consumed rng + n |}).

End Np.

(** ** scikit-learn's LinearRegression with two regressors *)

Module Sk.

Record LinearRegression : Type := {
  coef_ : R * R;
  intercept_ : R
}.

Section Fit.

(** Least-squares solver applied to the centred design matrix and the
    centred target ([scipy.linalg.lstsq]). *)
Variable lstsq : list (R * R) -> vector -> R * R.

(** [LinearRegression().fit(X, y)] with the default [fit_intercept=True]:
    centre the columns of [X] and [y], solve, and recover the intercept
    from the offsets. *)
Definition fit (X : list (R * R)) (y : vector) : result LinearRegression :=
  match X with
  | [] => Err ValueError
  | _ =>
      let X_offset := (mean (map fst X), mean (map snd X)) in
      let y_offset := mean y in
      let Xc := map (fun x => (fst x - fst X_offset, snd x - snd X_offset)) X in
      let yc := map (fun v => v - y_offset) y in
      let c := lstsq Xc yc in
      Ok {| coef_ := c;
            intercept_ :=
              y_offset - (fst X_offset * fst c + snd X_offset * snd c) |}
  end.

End Fit.

(** [regr.predict(X)] *)
Definition predict (regr : LinearRegression) (X : list (R * R)) : vector :=
  map (fun x => fst x * fst (coef_ regr) + snd x * snd (coef_ regr)
                + intercept_ regr) X.

(** A solver to instantiate [lstsq] with: exact least squares for two
    columns through the Gram matrix (see [gram_solve_normal]), and the
    minimum-norm choice [h / trace] or [0] when the columns are dependent.
    The statements below hold for any solver. *)
Definition gram_solve (Xc : list (R * R)) (yc : vector) : R * R :=
  let a := map fst Xc in
  let b := map snd Xc in
  let g11 := rsum (zip_with Rmult a a) in
  let g12 := rsum (zip_with Rmult a b) in
  let g22 := rsum (zip_with Rmult b b) in
  let h1 := rsum (zip_with Rmult a yc) in
  let h2 := rsum (zip_with Rmult b yc) in
  let det := g11 * g22 - g12 * g12 in
  if Req_dec_T det 0 then
    if Req_dec_T (g11 + g22) 0 then (0, 0)
    else (h1 / (g11 + g22), h2 / (g11 + g22))
  else ((g22 * h1 - g12 * h2) / det, (g11 * h2 - g12 * h1) / det).

End Sk.

(** ** Inputs of the script *)

Record Inputs : Type := {
  T : nat;
  n_sim : nat;
  buyout : R;
  buy_year : Z;
  r : R;
  price_0 : R;
  price_sigma : R;
  roy_rate : R;
  opex_0 : R;
  opex_k : R;
  opex_lr : R;
  opex_sigma : R;
  capex : R;
  tax_rate : R;
  depr_sch : vector
}.

(** Quantity mined per period: [np.logspace(1, 0, T)]. *)
Definition quant (cfg : Inputs) : vector := Np.logspace 1 0 (T cfg).

(** The 7-year MACRS schedule of the script, as exact decimal fractions. *)
Definition macrs7 : list Q :=
  [0.1429; 0.2449; 0.1749; 0.1249; 0.0893; 0.0892; 0.0893; 0.0446]%Q.

(** The constants written at the top of the script. *)
Definition literal : Inputs := {|
  T := 10;
  n_sim := 1000;
  buyout := 100;
  buy_year := 5;
  r := 0.05;
  price_0 := 50;
  price_sigma := 0.3;
  roy_rate := 0.125;
  opex_0 := 25;
  opex_k := 0.5;
  opex_lr := 30;
  opex_sigma := 0.25;
  capex := 1250;
  tax_rate := 0.21;
  depr_sch := map Q2R macrs7
|}.

(** ** Path simulation *)

Section Simulation.

Variable cfg : Inputs.

(** Contents of the columns allocated with [np.empty], per array. *)
Variable junk_price junk_opex : nat -> nat -> R.

(** [np.c_[np.ones((n_sim, 1)) * x0, np.empty([n_sim, T - 1])]] *)
Definition init_matrix (x0 : R) (junk : nat -> nat -> R) : result matrix :=
  match T cfg with
  | O => Err ValueError
  | S k =>
      Ok (map (fun i => 1 * x0 :: map (junk i) (seq 1 k)) (seq 0 (n_sim cfg)))
  end.

Record SimState : Type := {
  rng : Np.RandomState;
  price : matrix;
  opex : matrix
}.

(** One price step, elementwise. *)
Definition price_step (p z : R) : R :=
  p * exp (- 0.5 * (price_sigma cfg ^ 2) * 1 + price_sigma cfg * z).

(** One opex step, elementwise, through the logarithm. *)
Definition opex_step (o z : R) : result R :=
  l <- Np.log o ;;
  lr <- Np.log (opex_lr cfg) ;;
  Ok (exp (l + opex_k cfg * (lr - l) * 1 + opex_sigma cfg * z)).

Fixpoint zip_withM (f : R -> R -> result R) (a b : vector) : result vector :=
  match a, b with
  | x :: a', y :: b' =>
      v <- f x y ;; vs <- zip_withM f a' b' ;; Ok (v :: vs)
  | _, _ => Ok []
  end.

(** Body of the loop for period [t]: the price draws, the price column,
    the opex draws, the opex column. *)
Definition sim_step (t : nat) (st : SimState) : result SimState :=
  let '(z, rng1) := Np.randn (n_sim cfg) (rng st) in
  let price' := set_col t (zip_with price_step (col (t - 1) (price st)) z)
                        (price st) in
  let '(z', rng2) := Np.randn (n_sim cfg) rng1 in
  o <- zip_withM opex_step (col (t - 1) (opex st)) z' ;;
  Ok {| rng := rng2; price := price'; opex := set_col t o (opex st) |}.

(** [for t in ts] *)
Fixpoint sim_loop (ts : list nat) (st : SimState) : result SimState :=
  match ts with
  | [] => Ok st
  | t :: ts' => st' <- sim_step t st ;; sim_loop ts' st'
  end.

(** State on entry to the loop. *)
Definition sim_init (rng0 : Np.RandomState) : result SimState :=
  p <- init_matrix (price_0 cfg) junk_price ;;
  o <- init_matrix (opex_0 cfg) junk_opex ;;
  Ok {| rng := rng0; price := p; opex := o |}.

(** State after the first [k] iterations of the loop. *)
Definition sim_prefix (k : nat) (rng0 : Np.RandomState) : result SimState :=
  st <- sim_init rng0 ;;
  sim_loop (seq 1 k) st.

(** The whole simulation: [for t in np.arange(1, T)]. *)
Definition simulate (rng0 : Np.RandomState) : result SimState :=
  st <- sim_init rng0 ;;
  sim_loop (seq 1 (T cfg - 1)) st.

(** The draws of the two [randn] calls of an iteration entered with the
    generator [g]. *)
Definition price_draws (g : Np.RandomState) : vector :=
  map (Np.normals g) (seq (Np.consumed g) (n_sim cfg)).
Definition opex_draws (g : Np.RandomState) : vector :=
  map (Np.normals g) (seq (Np.consumed g + n_sim cfg) (n_sim cfg)).

(** Generator on entry to the iteration that is [j] iterations after the
    one entered with [g]. *)
Definition advance (j : nat) (g : Np.RandomState) : Np.RandomState :=
  {| Np.normals := Np.normals g;
     Np.consumed := Np.consumed g + j * (n_sim cfg + n_sim cfg) |}.

(** Two runs side by side.

    Two states agree up to column [k] when they hold the same generator
    and the same columns below [k]; the columns from [k] on may differ
    (they still hold what [np.empty] returned). *)

Definition agree (k : nat) (s1 s2 : SimState) : Prop :=
  rng s1 = rng s2 /\
  (shape (n_sim cfg) (T cfg) (price s1) /\ shape (n_sim cfg) (T cfg) (price s2)) /\
  (shape (n_sim cfg) (T cfg) (opex s1) /\ shape (n_sim cfg) (T cfg) (opex s2)) /\
  forall t, (t < k)%nat ->
    col t (price s1) = col t (price s2) /\ col t (opex s1) = col t (opex s2).

Definition agree_result (k : nat) (r1 r2 : result SimState) : Prop :=
  match r1, r2 with
  | Ok s1, Ok s2 => agree k s1 s2
  | Err e1, Err e2 => e1 = e2
  | _, _ => False
  end.

End Simulation.

(** ** Cash flows *)

Section CashFlow.

Variable cfg : Inputs.

Record CashFlows : Type := {
  rev_gross : matrix;
  roy : matrix;
  rev_net : matrix;
  btcf : matrix;
  tax : matrix;
  atcf : matrix
}.

(** [np.r_[depr_sch, np.zeros((T - len(depr_sch)))]] *)
Definition depr_padded : result vector :=
  z <- Np.zeros (Z.of_nat (T cfg) - Z.of_nat (length (depr_sch cfg))) ;;
  Ok (depr_sch cfg ++ z).

Definition cash_flows (price opex : matrix) : result CashFlows :=
  let rev_gross := mat_row Rmult price (quant cfg) in
  let roy := mat_map (fun x => x * roy_rate cfg) rev_gross in
  let rev_net := mat_zip Rminus rev_gross roy in
  let btcf := mat_zip Rminus rev_net opex in
  d <- depr_padded ;;
  let tax := mat_map (fun x => tax_rate cfg * x)
               (mat_row Rminus btcf (map (fun f => capex cfg * f) d)) in
  let atcf := mat_zip Rminus btcf tax in
  Ok {| rev_gross := rev_gross; roy := roy; rev_net := rev_net;
        btcf := btcf; tax := tax; atcf := atcf |}.

End CashFlow.

(** ** Valuation *)

Section Valuation.

Variable cfg : Inputs.
Variable lstsq : list (R * R) -> vector -> R * R.

Record Valuation : Type := {
  dis_fact : vector;
  npv : vector;
  npv_cont : vector;
  X : list (R * R);
  regr : Sk.LinearRegression;
  cv_pred : vector;
  max_val : vector;
  enpv_w_opt : R;
  enpv_wo_opt : R;
  opt_val : R
}.

(** [[(1 + r)**(-i - 1) for i in range(T)]] *)
Definition discount_factors : result vector :=
  mapM (fun i => Py.pow (1 + r cfg) (- Z.of_nat i - 1)) (seq 0 (T cfg)).

(** [(m[:, b:] * v[b:]).sum(axis=1)] and [(m[:, :b] * v[:b]).sum(axis=1)] *)
Definition pv_from (b : Z) (m : matrix) (v : vector) : vector :=
  map rsum (mat_row Rmult (map (Py.slice_from b) m) (Py.slice_from b v)).
Definition pv_to (b : Z) (m : matrix) (v : vector) : vector :=
  map rsum (mat_row Rmult (map (Py.slice_to b) m) (Py.slice_to b v)).

Definition valuation (price opex atcf : matrix) : result Valuation :=
  dis_fact <- discount_factors ;;
  let npv := map rsum (mat_row Rmult atcf dis_fact) in
  let npv_cont := pv_from (buy_year cfg) atcf dis_fact in
  d <- Py.index (T cfg) (buy_year cfg) ;;
  let X_price := col d price in
  let X_opex := col d opex in
  let X := combine X_price X_opex in
  regr <- Sk.fit lstsq X npv_cont ;;
  let cv_pred := Sk.predict regr X in
  let max_val := map (fun c => Rmax c (buyout cfg)) cv_pred in
  let enpv_w_opt :=
    mean (pv_to (buy_year cfg) atcf dis_fact) + mean max_val - capex cfg in
  let enpv_wo_opt := mean npv - capex cfg in
  let opt_val := enpv_w_opt - enpv_wo_opt in
  Ok {| dis_fact := dis_fact; npv := npv; npv_cont := npv_cont; X := X;
        regr := regr; cv_pred := cv_pred; max_val := max_val;
        enpv_w_opt := enpv_w_opt; enpv_wo_opt := enpv_wo_opt;
        opt_val := opt_val |}.

End Valuation.

(** ** The script *)

Section Script.

(** Stream of standard normal variates of [np.random.RandomState(seed)]. *)
Variable gauss : Z -> nat -> R.
Variable junk_price junk_opex : nat -> nat -> R.
Variable lstsq : list (R * R) -> vector -> R * R.
Variable cfg : Inputs.

Definition RandomState (seed : Z) : Np.RandomState :=
  {| Np.normals := gauss seed; Np.consumed := 0 |}.

Record Run : Type := {
  paths : SimState;
  flows : CashFlows;
  value : Valuation
}.

(** Inputs on which every step of the script is defined. *)
Definition well_formed : Prop :=
  (1 <= T cfg)%nat /\ (1 <= n_sim cfg)%nat /\
  0 < opex_0 cfg /\ 0 < opex_lr cfg /\ 1 + r cfg <> 0 /\
  (length (depr_sch cfg) <= T cfg)%nat /\
  (- Z.of_nat (T cfg) <= buy_year cfg < Z.of_nat (T cfg))%Z.

Definition script : result Run :=
  st <- simulate cfg junk_price junk_opex (RandomState 1) ;;
  cf <- cash_flows cfg (price st) (opex st) ;;
  v <- valuation cfg lstsq (price st) (opex st) (atcf cf) ;;
  Ok {| paths := st; flows := cf; value := v |}.

End Script.

(** ** Instances used to exercise the statements *)

(** A generator whose every variate is 0, and zeroed [np.empty] memory. *)
Definition flat_stream : Z -> nat -> R := fun _ _ => 0.
Definition zero_fill : nat -> nat -> R := fun _ _ => 0.

(** Two periods, two simulations, everything taxed away: every after-tax
    cash flow is 0. *)
Definition taxed_away : Inputs := {|
  T := 2; n_sim := 2; buyout := 0; buy_year := 1; r := 0.05;
  price_0 := 50; price_sigma := 0.3; roy_rate := 0.125;
  opex_0 := 25; opex_k := 0.5; opex_lr := 30; opex_sigma := 0.25;
  capex := 0; tax_rate := 1; depr_sch := []
|}.

(** Three periods and two simulations with the script's rates. *)
Definition small : Inputs := {|
  T := 3; n_sim := 2; buyout := 100; buy_year := 1; r := 0.05;
  price_0 := 50; price_sigma := 0.3; roy_rate := 0.125;
  opex_0 := 25; opex_k := 0.5; opex_lr := 30; opex_sigma := 0.25;
  capex := 1250; tax_rate := 0.21; depr_sch := [0.1429; 0.2449]
|}.

(** One period, one simulation, a negative initial opex. *)
Definition negative_opex : Inputs := {|
  T := 1; n_sim := 1; buyout := 100; buy_year := 0; r := 0.05;
  price_0 := 50; price_sigma := 0.3; roy_rate := 0.125;
  opex_0 := -1; opex_k := 0.5; opex_lr := 30; opex_sigma := 0.25;
  capex := 1250; tax_rate := 0.21; depr_sch := []
|}.

(** One period and two simulations with a buyout of 1, for a valuation on
    hand-written cash flows. *)
Definition two_paths : Inputs := {|
  T := 1; n_sim := 2; buyout := 1; buy_year := 0; r := 0;
  price_0 := 1; price_sigma := 0; roy_rate := 0;
  opex_0 := 1; opex_k := 0; opex_lr := 1; opex_sigma := 0;
  capex := 0; tax_rate := 0; depr_sch := []
|}.

(** Exact sum of a list of fractions. *)
Definition Qsum (l : list Q) : Q := fold_right Qplus 0%Q l.

(** The inputs with another buyout price, and with another decision
    period: the two constants of the offer, lines 57 and 58 of the script. *)
Definition with_buyout (b : R) (cfg : Inputs) : Inputs := {|
  T := T cfg; n_sim := n_sim cfg; buyout := b; buy_year := buy_year cfg;
  r := r cfg; price_0 := price_0 cfg; price_sigma := price_sigma cfg;
  roy_rate := roy_rate cfg; opex_0 := opex_0 cfg; opex_k := opex_k cfg;
  opex_lr := opex_lr cfg; opex_sigma := opex_sigma cfg; capex := capex cfg;
  tax_rate := tax_rate cfg; depr_sch := depr_sch cfg
|}.

Definition with_buy_year (b : Z) (cfg : Inputs) : Inputs := {|
  T := T cfg; n_sim := n_sim cfg; buyout := buyout cfg; buy_year := b;
  r := r cfg; price_0 := price_0 cfg; price_sigma := price_sigma cfg;
  roy_rate := roy_rate cfg; opex_0 := opex_0 cfg; opex_k := opex_k cfg;
  opex_lr := opex_lr cfg; opex_sigma := opex_sigma cfg; capex := capex cfg;
  tax_rate := tax_rate cfg; depr_sch := depr_sch cfg
|}.



(** A generator whose variates alternate between 1 and -1. *)
Definition alternating : Z -> nat -> R :=
  fun _ k => if Nat.even k then 1 else -1.

(** * Properties *)

(** ** Lists, columns and sums *)

Lemma bind_ok {A B} (c : result A) (k : A -> result B) (b : B) :
  bind c k = Ok b -> exists a, c = Ok a /\ k a = Ok b.
Proof. destruct c as [a|e]; simpl; intros H; [eauto | discriminate]. Qed.

Ltac inv_bind H :=
  let a := fresh "a" in
  let E := fresh "E" in
  apply bind_ok in H; destruct H as (a & E & H).

Lemma zip_with_length {A B C} (f : A -> B -> C) l l' :
  length (zip_with f l l') = Nat.min (length l) (length l').
Proof. revert l'; induction l; destruct l'; simpl; auto. Qed.

Lemma zip_with_nth {A B C} (f : A -> B -> C) da db dc l l' k :
  (k < length l)%nat -> (k < length l')%nat ->
  nth k (zip_with f l l') dc = f (nth k l da) (nth k l' db).
Proof.
  revert l' k; induction l as [|a l IH]; intros [|b l'] [|k]; simpl;
    try lia; intros; auto.
  apply IH; lia.
Qed.

Lemma set_nth_length t x row : length (set_nth t x row) = length row.
Proof.
  revert t; induction row as [|a row IH]; intros [|t]; simpl; auto.
Qed.

Lemma set_nth_same t x row :
  (t < length row)%nat -> nth t (set_nth t x row) 0 = x.
Proof.
  revert t; induction row as [|a row IH]; intros [|t]; simpl; try lia; auto.
  intros; apply IH; lia.
Qed.

Lemma set_nth_other t t' x row :
  t <> t' -> nth t' (set_nth t x row) 0 = nth t' row 0.
Proof.
  revert t t'; induction row as [|a row IH]; intros [|t] [|t']; simpl;
    auto; try congruence.
Qed.

Lemma shape_nth n w m i :
  shape n w m -> (i < n)%nat -> length (nth i m []) = w.
Proof.
  intros [Hn Hw] Hi. rewrite Forall_forall in Hw.
  apply Hw, nth_In; lia.
Qed.

Lemma col_length t m : length (col t m) = length m.
Proof. apply length_map. Qed.

Lemma col_nth t m i : (i < length m)%nat -> nth i (col t m) 0 = entry m i t.
Proof.
  intros Hi. unfold col, entry.
  rewrite (nth_indep _ 0 (nth t [] 0)) by (rewrite length_map; lia).
  apply (map_nth (fun row => nth t row 0)).
Qed.

Lemma set_col_shape n w t v m :
  shape n w m -> length v = n -> shape n w (set_col t v m).
Proof.
  intros [Hn Hw] Hv. subst n. unfold set_col. split.
  - rewrite zip_with_length; lia.
  - revert v Hv; induction Hw as [|row m Hrow Hm IH]; intros [|x v] Hv;
      simpl in *; try discriminate; constructor.
    + rewrite set_nth_length; exact Hrow.
    + apply IH; lia.
Qed.

Lemma col_set_col_same n w t v m :
  shape n w m -> length v = n -> (t < w)%nat -> col t (set_col t v m) = v.
Proof.
  intros [Hn Hw] Hv Ht. subst n. unfold set_col, col.
  revert v Hv; induction Hw as [|row m Hrow Hm IH]; intros [|x v] Hv;
    simpl in *; try discriminate; auto.
  rewrite set_nth_same by lia. f_equal. apply IH; lia.
Qed.

Lemma col_set_col_other t t' v m :
  t <> t' -> length v = length m -> col t' (set_col t v m) = col t' m.
Proof.
  intros Hne. unfold set_col, col.
  revert v; induction m as [|row m IH]; intros [|x v] Hv;
    simpl in *; try discriminate; auto.
  rewrite set_nth_other by exact Hne. f_equal. apply IH; lia.
Qed.

(** Two arrays of one shape with the same columns are the same array. *)
Lemma matrix_ext n w a b :
  shape n w a -> shape n w b ->
  (forall t, (t < w)%nat -> col t a = col t b) -> a = b.
Proof.
  intros [Ha Hwa] [Hb Hwb]. subst n. revert b Hb Hwb.
  induction Hwa as [|row a Hrow Hwa IH]; intros [|row' b] Hb Hwb Hcol;
    simpl in *; try discriminate; auto.
  pose proof (Forall_inv Hwb) as Hrow'.
  pose proof (Forall_inv_tail Hwb) as Hwb'. simpl in Hrow'.
  f_equal.
  - apply (nth_ext _ _ 0 0); [congruence|].
    intros t Ht. rewrite Hrow in Ht.
    specialize (Hcol t Ht). simpl in Hcol. congruence.
  - apply IH; auto. intros t Ht. specialize (Hcol t Ht).
    simpl in Hcol. congruence.
Qed.

Lemma zip_withM_length f a b v :
  zip_withM f a b = Ok v -> length v = Nat.min (length a) (length b).
Proof.
  revert b v; induction a as [|x a IH]; intros [|y b] v H; simpl in *;
    try (injection H as <-; reflexivity).
  inv_bind H. inv_bind H. injection H as <-. simpl.
  f_equal. eapply IH; eauto.
Qed.

Lemma zip_withM_nth f a b v k :
  zip_withM f a b = Ok v -> (k < length a)%nat -> (k < length b)%nat ->
  f (nth k a 0) (nth k b 0) = Ok (nth k v 0).
Proof.
  revert b v k; induction a as [|x a IH]; intros [|y b] v k H Ha Hb;
    simpl in *; try lia.
  inv_bind H. inv_bind H. injection H as <-.
  destruct k; simpl; auto. eapply IH; eauto; lia.
Qed.

Lemma nth_map_seq (f : nat -> R) s n i :
  (i < n)%nat -> nth i (map f (seq s n)) 0 = f (s + i)%nat.
Proof.
  intros Hi. rewrite (nth_indep _ 0 (f 0%nat)) by
    (rewrite length_map, length_seq; exact Hi).
  rewrite map_nth, seq_nth by exact Hi. reflexivity.
Qed.

(** ** The simulation loop *)

Section SimulationFacts.

Variable cfg : Inputs.

Let n := n_sim cfg.
Let w := T cfg.

Lemma init_matrix_shape x0 junk m :
  init_matrix cfg x0 junk = Ok m -> shape n w m.
Proof.
  unfold init_matrix, n, w. destruct (T cfg) as [|k]; [discriminate|].
  intros H; injection H as <-. split.
  - rewrite length_map, length_seq; reflexivity.
  - apply Forall_forall. intros row Hrow.
    apply in_map_iff in Hrow. destruct Hrow as (i & <- & _).
    simpl. rewrite length_map, length_seq; reflexivity.
Qed.

Lemma init_matrix_col0 x0 junk m :
  init_matrix cfg x0 junk = Ok m -> col 0 m = repeat (1 * x0) n.
Proof.
  unfold init_matrix, n. destruct (T cfg) as [|k]; [discriminate|].
  intros H; injection H as <-. unfold col. rewrite map_map. simpl.
  generalize 0%nat. induction (n_sim cfg) as [|j IH]; intros s; simpl;
    [reflexivity | f_equal; apply IH].
Qed.

Lemma sim_step_spec t st st' :
  shape n w (price st) -> shape n w (opex st) -> (t < w)%nat ->
  sim_step cfg t st = Ok st' ->
  shape n w (price st') /\ shape n w (opex st') /\
  Np.normals (rng st') = Np.normals (rng st) /\
  Np.consumed (rng st') = (Np.consumed (rng st) + n + n)%nat /\
  col t (price st') =
    zip_with (price_step cfg) (col (t - 1) (price st)) (price_draws cfg (rng st)) /\
  zip_withM (opex_step cfg) (col (t - 1) (opex st)) (opex_draws cfg (rng st))
    = Ok (col t (opex st')) /\
  (forall t', t' <> t ->
     col t' (price st') = col t' (price st) /\
     col t' (opex st') = col t' (opex st)).
Proof.
  intros Hp Ho Ht H. unfold sim_step, Np.randn in H. simpl in H.
  inv_bind H. injection H as <-. simpl.
  fold (price_draws cfg (rng st)) in *. fold (opex_draws cfg (rng st)) in E.
  assert (Lz : length (zip_with (price_step cfg) (col (t - 1) (price st))
                         (price_draws cfg (rng st))) = n).
  { rewrite zip_with_length, col_length. unfold price_draws.
    rewrite length_map, length_seq. destruct Hp as [-> _]. lia. }
  assert (La : length a = n).
  { apply zip_withM_length in E. rewrite E, col_length. unfold opex_draws.
    rewrite length_map, length_seq. destruct Ho as [-> _]. lia. }
  split; [apply set_col_shape; assumption|].
  split; [apply set_col_shape; assumption|].
  split; [reflexivity|]. split; [reflexivity|].
  split; [apply (col_set_col_same n w); assumption|].
  split.
  - rewrite E. f_equal. symmetry. apply (col_set_col_same n w); assumption.
  - intros t' Hne. split; apply col_set_col_other; try congruence.
    + destruct Hp as [-> _]. exact Lz.
    + destruct Ho as [-> _]. exact La.
Qed.

Lemma sim_loop_spec k : forall a st st',
  shape n w (price st) -> shape n w (opex st) ->
  (1 <= a)%nat -> (a + k <= w)%nat ->
  sim_loop cfg (seq a k) st = Ok st' ->
  shape n w (price st') /\ shape n w (opex st') /\
  rng st' = advance cfg k (rng st) /\
  (forall t', (t' < a)%nat ->
     col t' (price st') = col t' (price st) /\
     col t' (opex st') = col t' (opex st)) /\
  (forall t, (a <= t < a + k)%nat ->
     col t (price st') =
       zip_with (price_step cfg) (col (t - 1) (price st'))
                (price_draws cfg (advance cfg (t - a) (rng st))) /\
     zip_withM (opex_step cfg) (col (t - 1) (opex st'))
               (opex_draws cfg (advance cfg (t - a) (rng st)))
       = Ok (col t (opex st'))).
Proof.
  induction k as [|k IH]; intros a st st' Hp Ho Ha Hk H; simpl in H.
  - injection H as <-. split; [exact Hp|]. split; [exact Ho|].
    split; [|split; [auto | intros; lia]].
    unfold advance; fold n. destruct (rng st); simpl. f_equal. lia.
  - inv_bind H. rename a0 into st1.
    destruct (sim_step_spec a st st1 Hp Ho ltac:(lia) E)
      as (Hp1 & Ho1 & Hn1 & Hc1 & Hcp & Hco & Hother).
    destruct (IH (S a) st1 st' Hp1 Ho1 ltac:(lia) ltac:(lia) H)
      as (Hp' & Ho' & Hrng & Hbelow & Hrec).
    assert (Hadv : advance cfg 1 (rng st) = rng st1).
    { unfold advance; fold n. destruct (rng st1); simpl in *. subst. f_equal. lia. }
    split; [exact Hp'|]. split; [exact Ho'|]. split.
    { rewrite Hrng, <- Hadv. unfold advance; fold n; simpl. f_equal. lia. }
    split.
    + intros t' Ht'. destruct (Hbelow t' ltac:(lia)) as [-> ->].
      apply Hother; lia.
    + intros t Ht. destruct (Nat.eq_dec t a) as [->|Hne].
      * replace (a - a)%nat with 0%nat by lia.
        replace (advance cfg 0 (rng st)) with (rng st)
          by (unfold advance; fold n; destruct (rng st); simpl; f_equal; lia).
        destruct (Hbelow a ltac:(lia)) as [-> ->].
        destruct (Hbelow (a - 1)%nat ltac:(lia)) as [-> ->].
        destruct (Hother (a - 1)%nat ltac:(lia)) as [-> ->].
        split; assumption.
      * replace (advance cfg (t - a) (rng st)) with (advance cfg (t - S a) (rng st1)).
        { apply Hrec; lia. }
        rewrite <- Hadv. unfold advance; fold n; simpl. f_equal.
        replace (t - a)%nat with (S (t - S a)) by lia. simpl. lia.
Qed.

Lemma sim_step_agree t s1 s2 :
  (1 <= t < w)%nat -> agree cfg t s1 s2 ->
  agree_result cfg (S t) (sim_step cfg t s1) (sim_step cfg t s2).
Proof.
  intros Ht (Hrng & [Hp1 Hp2] & [Ho1 Ho2] & Hcols).
  destruct (Hcols (t - 1)%nat ltac:(lia)) as [Hpc Hoc].
  pose proof (sim_step_spec t s1) as S1.
  pose proof (sim_step_spec t s2) as S2.
  unfold sim_step in *. unfold Np.randn in *. simpl in *.
  rewrite <- Hrng, <- Hoc in *. rewrite <- Hpc in S2 |- *.
  destruct (zip_withM (opex_step cfg) (col (t - 1) (opex s1)) _) as [o|e];
    simpl in *; [|reflexivity].
  destruct (S1 _ Hp1 Ho1 ltac:(lia) eq_refl)
    as (Hp1' & Ho1' & _ & _ & Hcp1 & Hco1 & Hoth1).
  destruct (S2 _ Hp2 Ho2 ltac:(lia) eq_refl)
    as (Hp2' & Ho2' & _ & _ & Hcp2 & Hco2 & Hoth2).
  simpl in *. split; [reflexivity|].
  split; [split; assumption|]. split; [split; assumption|].
  intros t' Ht'. simpl. destruct (Nat.eq_dec t' t) as [->|Hne].
  - split; congruence.
  - destruct (Hoth1 t' Hne) as [-> ->]. destruct (Hoth2 t' Hne) as [-> ->].
    apply Hcols; lia.
Qed.

Lemma sim_loop_agree k : forall a s1 s2,
  (1 <= a)%nat -> (a + k <= w)%nat -> agree cfg a s1 s2 ->
  agree_result cfg (a + k) (sim_loop cfg (seq a k) s1) (sim_loop cfg (seq a k) s2).
Proof.
  induction k as [|k IH]; intros a s1 s2 Ha Hk Hag; simpl.
  - rewrite Nat.add_0_r. exact Hag.
  - pose proof (sim_step_agree a s1 s2 ltac:(lia) Hag) as Hstep.
    destruct (sim_step cfg a s1) as [s1'|e1], (sim_step cfg a s2) as [s2'|e2];
      simpl in *; try contradiction; try assumption.
    replace (a + S k)%nat with (S a + k)%nat by lia.
    apply IH; [lia | lia | exact Hstep].
Qed.

Lemma agree_all s1 s2 : agree cfg w s1 s2 -> s1 = s2.
Proof.
  intros (Hrng & [Hp1 Hp2] & [Ho1 Ho2] & Hcols).
  destruct s1 as [g1 p1 o1], s2 as [g2 p2 o2]; simpl in *.
  f_equal; [assumption | |].
  - apply (matrix_ext n w); auto. intros t Ht; apply Hcols; exact Ht.
  - apply (matrix_ext n w); auto. intros t Ht; apply Hcols; exact Ht.
Qed.

Lemma init_matrix_ok x0 junk :
  (1 <= w)%nat -> exists m, init_matrix cfg x0 junk = Ok m.
Proof.
  unfold init_matrix, w. destruct (T cfg); [lia | eauto].
Qed.

(** The simulation does not depend on what [np.empty] returned. *)
Lemma simulate_junk_irrelevant jp jo jp' jo' g :
  simulate cfg jp jo g = simulate cfg jp' jo' g.
Proof.
  destruct (Nat.eq_dec w 0) as [Hz|Hnz].
  { unfold simulate, sim_init, init_matrix. unfold w in Hz. rewrite Hz.
    reflexivity. }
  assert (Hw : (1 <= w)%nat) by lia.
  unfold simulate, sim_init.
  destruct (init_matrix_ok (price_0 cfg) jp Hw) as [p Ep].
  destruct (init_matrix_ok (price_0 cfg) jp' Hw) as [p' Ep'].
  destruct (init_matrix_ok (opex_0 cfg) jo Hw) as [o Eo].
  destruct (init_matrix_ok (opex_0 cfg) jo' Hw) as [o' Eo'].
  rewrite Ep, Ep', Eo, Eo'. simpl.
  assert (Hag : agree cfg 1 {| rng := g; price := p; opex := o |}
                        {| rng := g; price := p'; opex := o' |}).
  { split; [reflexivity|]. simpl.
    split; [split; eapply init_matrix_shape; eauto|].
    split; [split; eapply init_matrix_shape; eauto|].
    intros t Ht. replace t with 0%nat by lia.
    rewrite (init_matrix_col0 _ _ _ Ep), (init_matrix_col0 _ _ _ Ep').
    rewrite (init_matrix_col0 _ _ _ Eo), (init_matrix_col0 _ _ _ Eo').
    split; reflexivity. }
  pose proof (sim_loop_agree (w - 1) 1 _ _ ltac:(lia) ltac:(lia) Hag) as H.
  fold w.
  destruct (sim_loop cfg (seq 1 (w - 1)) _) as [s1|e1],
           (sim_loop cfg (seq 1 (w - 1)) _) as [s2|e2];
    simpl in H; try contradiction.
  - f_equal. apply agree_all. replace w with (1 + (w - 1))%nat at 1 by lia.
    exact H.
  - congruence.
Qed.

(** *** Positivity and definedness of the opex column *)

Lemma opex_step_pos o z x : opex_step cfg o z = Ok x -> 0 < x.
Proof.
  unfold opex_step. intros H. inv_bind H. inv_bind H.
  injection H as <-. apply exp_pos.
Qed.

Lemma opex_column_pos a b v :
  zip_withM (opex_step cfg) a b = Ok v -> all_pos v.
Proof.
  revert b v; induction a as [|o a IH]; intros [|z b] v H; simpl in H;
    try (injection H as <-; constructor).
  inv_bind H. inv_bind H. injection H as <-. constructor.
  - eapply opex_step_pos; eauto.
  - eapply IH; eauto.
Qed.

Lemma opex_column_defined a b :
  0 < opex_lr cfg -> all_pos a ->
  exists v, zip_withM (opex_step cfg) a b = Ok v.
Proof.
  intros Hlr Ha. revert b; induction Ha as [|o a Ho Ha IH]; intros [|z b];
    simpl; eauto.
  destruct (IH b) as [v ->]. unfold opex_step, Np.log.
  destruct (Rlt_dec 0 o); [|contradiction].
  destruct (Rlt_dec 0 (opex_lr cfg)); [|contradiction].
  simpl. eauto.
Qed.

Lemma sim_loop_defined k : forall a st,
  shape n w (price st) -> shape n w (opex st) ->
  (1 <= a)%nat -> (a + k <= w)%nat ->
  0 < opex_lr cfg -> all_pos (col (a - 1) (opex st)) ->
  exists st', sim_loop cfg (seq a k) st = Ok st'.
Proof.
  induction k as [|k IH]; intros a st Hp Ho Ha Hk Hlr Hpos; simpl; eauto.
  destruct (opex_column_defined _ (opex_draws cfg (rng st)) Hlr Hpos)
    as [v Hv].
  assert (Hstep : exists st1, sim_step cfg a st = Ok st1).
  { unfold sim_step, Np.randn. simpl. unfold opex_draws in Hv.
    rewrite Hv. simpl. eauto. }
  destruct Hstep as [st1 Hst1]. rewrite Hst1. simpl.
  destruct (sim_step_spec a st st1 Hp Ho ltac:(lia) Hst1)
    as (Hp1 & Ho1 & _ & _ & _ & Hco & _).
  apply IH; auto; try lia.
  replace (S a - 1)%nat with a by lia.
  eapply opex_column_pos; eauto.
Qed.

(** *** The state after [k] iterations *)

Variable junk_price junk_opex : nat -> nat -> R.

Lemma sim_prefix_spec k g st :
  (k < w)%nat -> sim_prefix cfg junk_price junk_opex k g = Ok st ->
  shape n w (price st) /\ shape n w (opex st) /\
  rng st = advance cfg k g /\
  col 0 (price st) = repeat (1 * price_0 cfg) n /\
  col 0 (opex st) = repeat (1 * opex_0 cfg) n /\
  (forall t, (1 <= t <= k)%nat ->
     col t (price st) =
       zip_with (price_step cfg) (col (t - 1) (price st))
                (price_draws cfg (advance cfg (t - 1) g)) /\
     zip_withM (opex_step cfg) (col (t - 1) (opex st))
               (opex_draws cfg (advance cfg (t - 1) g))
       = Ok (col t (opex st))).
Proof.
  intros Hk H. unfold sim_prefix, sim_init in H.
  inv_bind H. inv_bind E. inv_bind E. injection E as <-.
  rename a0 into p, a1 into o.
  pose proof (init_matrix_shape _ _ _ E0) as Hp.
  pose proof (init_matrix_shape _ _ _ E1) as Ho.
  destruct (sim_loop_spec k 1 {| rng := g; price := p; opex := o |} st
              Hp Ho ltac:(lia) ltac:(lia) H)
    as (Hp' & Ho' & Hrng & Hbelow & Hrec). simpl in *.
  destruct (Hbelow 0%nat ltac:(lia)) as [Hc0p Hc0o].
  split; [exact Hp'|]. split; [exact Ho'|]. split; [exact Hrng|].
  split; [rewrite Hc0p; eapply init_matrix_col0; eauto|].
  split; [rewrite Hc0o; eapply init_matrix_col0; eauto|].
  intros t Ht. apply Hrec. lia.
Qed.

Lemma simulate_defined g :
  (1 <= w)%nat -> 0 < opex_0 cfg -> 0 < opex_lr cfg ->
  exists st, simulate cfg junk_price junk_opex g = Ok st.
Proof.
  intros Hw H0 Hlr. unfold simulate, sim_init.
  destruct (init_matrix_ok (price_0 cfg) junk_price Hw) as [p Ep].
  destruct (init_matrix_ok (opex_0 cfg) junk_opex Hw) as [o Eo].
  rewrite Ep, Eo. simpl.
  apply sim_loop_defined; simpl; try lia; auto.
  - eapply init_matrix_shape; eauto.
  - eapply init_matrix_shape; eauto.
  - rewrite (init_matrix_col0 _ _ _ Eo). apply Forall_forall.
    intros x Hx. apply repeat_spec in Hx. subst x. lra.
Qed.

End SimulationFacts.

(** ** Sums and means *)

Lemma rsum_app a b : rsum (a ++ b) = rsum a + rsum b.
Proof. induction a as [|x a IH]; simpl; [lra | rewrite IH; lra]. Qed.

Lemma rsum_split d v : rsum v = rsum (firstn d v) + rsum (skipn d v).
Proof. rewrite <- rsum_app, firstn_skipn. reflexivity. Qed.

Lemma zip_with_firstn {A B C} (f : A -> B -> C) d a b :
  zip_with f (firstn d a) (firstn d b) = firstn d (zip_with f a b).
Proof.
  revert a b; induction d as [|d IH]; intros [|x a] [|y b]; simpl; auto.
  f_equal; apply IH.
Qed.

Lemma zip_with_skipn {A B C} (f : A -> B -> C) d a b :
  zip_with f (skipn d a) (skipn d b) = skipn d (zip_with f a b).
Proof.
  revert a b; induction d as [|d IH]; intros [|x a] [|y b]; simpl; auto.
  destruct (skipn d a); reflexivity.
Qed.

Lemma sigma_ext f g lo k :
  (forall t, (lo <= t < lo + k)%nat -> f t = g t) ->
  sigma f lo k = sigma g lo k.
Proof.
  revert lo; induction k as [|k IH]; intros lo H; simpl; auto.
  rewrite (H lo) by lia. f_equal. apply IH. intros; apply H; lia.
Qed.

Lemma sigma_split f lo j k :
  sigma f lo (j + k) = sigma f lo j + sigma f (lo + j) k.
Proof.
  revert lo; induction j as [|j IH]; intros lo; simpl.
  - rewrite Nat.add_0_r. lra.
  - rewrite IH. replace (S lo + j)%nat with (lo + S j)%nat by lia. lra.
Qed.

Lemma rsum_skipn_sigma v d :
  rsum (skipn d v) = sigma (fun t => nth t v 0) d (length v - d).
Proof.
  revert d; induction v as [|x v IH]; intros d.
  - destruct d; reflexivity.
  - destruct d as [|d].
    + simpl. f_equal. specialize (IH 0%nat). simpl in IH.
      rewrite Nat.sub_0_r in IH. rewrite IH.
      clear. generalize 0%nat. induction (length v) as [|k IHk]; intros lo;
        simpl; auto. f_equal. apply IHk.
    + simpl. rewrite IH.
      clear. generalize (length v - d)%nat. intros k. revert d.
      induction k as [|k IHk]; intros d; simpl; auto. f_equal. apply IHk.
Qed.

Lemma rsum_sigma v : rsum v = sigma (fun t => nth t v 0) 0 (length v).
Proof.
  rewrite <- (Nat.sub_0_r (length v)). apply (rsum_skipn_sigma v 0).
Qed.

Lemma rsum_firstn_sigma v d :
  (d <= length v)%nat -> rsum (firstn d v) = sigma (fun t => nth t v 0) 0 d.
Proof.
  intros Hd. rewrite rsum_sigma, length_firstn, Nat.min_l by exact Hd.
  apply sigma_ext. intros t Ht. rewrite nth_firstn.
  destruct (t <? d)%nat eqn:E; auto. apply Nat.ltb_ge in E. lia.
Qed.

Lemma rsum_map_plus {A} (f g : A -> R) l :
  rsum (map (fun a => f a + g a) l) = rsum (map f l) + rsum (map g l).
Proof. induction l as [|a l IH]; simpl; [lra | rewrite IH; lra]. Qed.

Lemma rsum_map_le {A} (f g : A -> R) l :
  (forall a, In a l -> f a <= g a) -> rsum (map f l) <= rsum (map g l).
Proof.
  induction l as [|a l IH]; intros H; simpl; [lra|].
  pose proof (H a (or_introl eq_refl)).
  assert (rsum (map f l) <= rsum (map g l)) by (apply IH; intros; apply H; right; auto).
  lra.
Qed.

Lemma rsum_map_affine {A} (f g : A -> R) (c1 c2 b : R) l :
  rsum (map (fun a => f a * c1 + g a * c2 + b) l)
  = c1 * rsum (map f l) + c2 * rsum (map g l) + INR (length l) * b.
Proof.
  induction l as [|a l IH].
  - simpl. lra.
  - change (length (a :: l)) with (S (length l)). rewrite S_INR.
    simpl. rewrite IH. lra.
Qed.

Lemma mean_le v v' :
  length v = length v' -> rsum v <= rsum v' -> mean v <= mean v'.
Proof.
  intros Hl Hs. unfold mean. rewrite Hl.
  destruct (length v') as [|k].
  - simpl. unfold Rdiv. rewrite Rinv_0. lra.
  - apply Rmult_le_compat_r; [|exact Hs].
    apply Rlt_le, Rinv_0_lt_compat, lt_0_INR. lia.
Qed.

Lemma fit_inv lstsq X y regr :
  Sk.fit lstsq X y = Ok regr ->
  X <> [] /\
  Sk.intercept_ regr =
    mean y - (mean (map fst X) * fst (Sk.coef_ regr)
              + mean (map snd X) * snd (Sk.coef_ regr)).
Proof.
  unfold Sk.fit. destruct X as [|x X]; [discriminate|].
  intros H. injection H as <-. split; [discriminate | reflexivity].
Qed.

(** Where the Gram matrix is invertible, [gram_solve] solves the normal
    equations. *)
Lemma gram_solve_normal Xc yc :
  let a := map fst Xc in
  let b := map snd Xc in
  let dot u v := rsum (zip_with Rmult u v) in
  dot a a * dot b b - dot a b * dot a b <> 0 ->
  dot a a * fst (Sk.gram_solve Xc yc) + dot a b * snd (Sk.gram_solve Xc yc)
    = dot a yc /\
  dot a b * fst (Sk.gram_solve Xc yc) + dot b b * snd (Sk.gram_solve Xc yc)
    = dot b yc.
Proof.
  intros a b dot Hdet. unfold Sk.gram_solve. fold a b.
  fold (dot a a) (dot a b) (dot b b) (dot a yc) (dot b yc).
  destruct (Req_dec_T (dot a a * dot b b - dot a b * dot a b) 0) as [E|_];
    [contradiction|].
  simpl fst. simpl snd. split; field; exact Hdet.
Qed.

(** With an intercept, the mean of the fitted values is the mean of the
    target, whatever coefficients the solver returns. *)
Lemma fit_mean lstsq X y regr :
  Sk.fit lstsq X y = Ok regr -> mean (Sk.predict regr X) = mean y.
Proof.
  intros H. apply fit_inv in H. destruct H as [Hne Hb].
  destruct regr as [[c1 c2] b]. simpl in Hb. subst b.
  unfold Sk.predict. simpl Sk.coef_. simpl Sk.intercept_. simpl fst. simpl snd.
  unfold mean at 1. rewrite length_map, (rsum_map_affine fst snd).
  assert (Hn : INR (length X) <> 0).
  { apply not_0_INR. destruct X; [congruence | simpl; lia]. }
  unfold mean at 2 3. rewrite !length_map. field. exact Hn.
Qed.

(** ** Elementwise operations, entry by entry *)

Lemma mat_row_shape f n w a v :
  shape n w a -> length v = w -> shape n w (mat_row f a v).
Proof.
  intros [Hn Hw] Hv. split.
  - unfold mat_row. rewrite length_map. exact Hn.
  - unfold mat_row. apply Forall_map. eapply Forall_impl; [|exact Hw].
    intros row Hrow. simpl in *. rewrite zip_with_length. lia.
Qed.

Lemma mat_zip_shape f n w a b :
  shape n w a -> shape n w b -> shape n w (mat_zip f a b).
Proof.
  intros [Ha Hwa] [Hb Hwb]. subst n. unfold mat_zip. split.
  - rewrite zip_with_length. lia.
  - revert b Hb Hwb. induction Hwa as [|row a Hrow Hwa IH];
      intros [|row' b] Hb Hwb; simpl in *; try discriminate; constructor.
    + pose proof (Forall_inv Hwb) as Hrow'. simpl in Hrow'.
      rewrite zip_with_length. lia.
    + apply IH; [lia | exact (Forall_inv_tail Hwb)].
Qed.

Lemma mat_map_shape f n w a : shape n w a -> shape n w (mat_map f a).
Proof.
  intros [Hn Hw]. unfold mat_map. split.
  - rewrite length_map. exact Hn.
  - apply Forall_map. eapply Forall_impl; [|exact Hw].
    intros row Hrow. simpl in *. rewrite length_map. exact Hrow.
Qed.

Lemma mat_row_entry f n w a v i t :
  shape n w a -> length v = w -> (i < n)%nat -> (t < w)%nat ->
  entry (mat_row f a v) i t = f (entry a i t) (nth t v 0).
Proof.
  intros Ha Hv Hi Ht. unfold entry, mat_row.
  change (@nil R) with ((fun row => zip_with f row v) []) at 1.
  rewrite map_nth. apply zip_with_nth.
  - rewrite (shape_nth n w); assumption.
  - lia.
Qed.

Lemma mat_zip_entry f n w a b i t :
  shape n w a -> shape n w b -> (i < n)%nat -> (t < w)%nat ->
  entry (mat_zip f a b) i t = f (entry a i t) (entry b i t).
Proof.
  intros Ha Hb Hi Ht. unfold entry, mat_zip.
  rewrite (zip_with_nth (zip_with f) [] [] []).
  - apply zip_with_nth; rewrite (shape_nth n w); assumption.
  - destruct Ha as [-> _]. exact Hi.
  - destruct Hb as [-> _]. exact Hi.
Qed.

Lemma mat_map_entry f n w a i t :
  shape n w a -> (i < n)%nat -> (t < w)%nat ->
  entry (mat_map f a) i t = f (entry a i t).
Proof.
  intros Ha Hi Ht. unfold entry, mat_map.
  change (@nil R) with (map f []) at 1. rewrite map_nth.
  rewrite (nth_indep _ 0 (f 0)) by
    (rewrite length_map, (shape_nth n w); assumption).
  apply map_nth.
Qed.

(** ** Cash flows *)

Section CashFlowFacts.

Variable cfg : Inputs.

Lemma quant_length : length (quant cfg) = T cfg.
Proof.
  unfold quant, Np.logspace, Np.linspace.
  rewrite !length_map, length_seq. reflexivity.
Qed.

Lemma depr_padded_spec d :
  depr_padded cfg = Ok d ->
  (length (depr_sch cfg) <= T cfg)%nat /\ length d = T cfg /\
  forall t, nth t d 0 = nth t (depr_sch cfg) 0.
Proof.
  unfold depr_padded, Np.zeros. intros H.
  destruct (Z.ltb_spec (Z.of_nat (T cfg) - Z.of_nat (length (depr_sch cfg))) 0)
    as [Hlt|Hge]; simpl in H; [discriminate|].
  injection H as <-. split; [lia|]. split.
  - rewrite length_app, repeat_length. lia.
  - intros t. destruct (Nat.lt_ge_cases t (length (depr_sch cfg))) as [Hin|Hout].
    + apply app_nth1. exact Hin.
    + rewrite app_nth2 by exact Hout.
      rewrite (nth_overflow (depr_sch cfg)) by exact Hout.
      apply nth_repeat.
Qed.

Lemma depr_padded_defined :
  (length (depr_sch cfg) <= T cfg)%nat -> exists d, depr_padded cfg = Ok d.
Proof.
  intros H. unfold depr_padded, Np.zeros.
  destruct (Z.ltb_spec (Z.of_nat (T cfg) - Z.of_nat (length (depr_sch cfg))) 0);
    [lia | simpl; eauto].
Qed.

Lemma cash_flows_defined price opex :
  (length (depr_sch cfg) <= T cfg)%nat ->
  exists cf, cash_flows cfg price opex = Ok cf.
Proof.
  intros H. unfold cash_flows.
  destruct (depr_padded_defined H) as [d ->]. simpl. eauto.
Qed.

Lemma cash_flows_spec price opex cf :
  shape (n_sim cfg) (T cfg) price -> shape (n_sim cfg) (T cfg) opex ->
  cash_flows cfg price opex = Ok cf ->
  shape (n_sim cfg) (T cfg) (atcf cf) /\
  forall i t, (i < n_sim cfg)%nat -> (t < T cfg)%nat ->
    entry (rev_gross cf) i t = entry price i t * nth t (quant cfg) 0 /\
    entry (roy cf) i t = entry (rev_gross cf) i t * roy_rate cfg /\
    entry (rev_net cf) i t = entry (rev_gross cf) i t - entry (roy cf) i t /\
    entry (btcf cf) i t = entry (rev_net cf) i t - entry opex i t /\
    entry (tax cf) i t =
      tax_rate cfg * (entry (btcf cf) i t - capex cfg * nth t (depr_sch cfg) 0) /\
    entry (atcf cf) i t = entry (btcf cf) i t - entry (tax cf) i t.
Proof.
  intros Hp Ho H. unfold cash_flows in H. inv_bind H. rename a into d.
  destruct (depr_padded_spec d E) as (_ & Hd & Hnth).
  injection H as <-. simpl.
  set (n := n_sim cfg) in *. set (w := T cfg) in *.
  assert (S1 : shape n w (mat_row Rmult price (quant cfg)))
    by (apply mat_row_shape; [exact Hp | apply quant_length]).
  assert (S2 : shape n w (mat_map (fun x => x * roy_rate cfg)
                                  (mat_row Rmult price (quant cfg))))
    by (apply mat_map_shape; exact S1).
  pose proof (mat_zip_shape Rminus n w _ _ S1 S2) as S3.
  pose proof (mat_zip_shape Rminus n w _ _ S3 Ho) as S4.
  assert (Ld : length (map (fun f => capex cfg * f) d) = w)
    by (rewrite length_map; exact Hd).
  pose proof (mat_row_shape Rminus n w _ _ S4 Ld) as S5.
  pose proof (mat_map_shape (fun x => tax_rate cfg * x) n w _ S5) as S6.
  pose proof (mat_zip_shape Rminus n w _ _ S4 S6) as S7.
  split; [exact S7|]. intros i t Hi Ht.
  split; [apply (mat_row_entry Rmult n w); auto; apply quant_length|].
  split; [rewrite (mat_map_entry (fun x => x * roy_rate cfg) n w) by auto;
          reflexivity|].
  split; [apply (mat_zip_entry Rminus n w); auto|].
  split; [apply (mat_zip_entry Rminus n w); auto|].
  split; [|apply (mat_zip_entry Rminus n w); auto].
  rewrite (mat_map_entry (fun x => tax_rate cfg * x) n w) by auto.
  rewrite (mat_row_entry Rminus n w) by auto.
  f_equal. f_equal.
  rewrite (nth_indep _ 0 (capex cfg * 0)) by (rewrite Ld; exact Ht).
  rewrite (map_nth (fun f => capex cfg * f)). rewrite Hnth. reflexivity.
Qed.

End CashFlowFacts.

(** ** Discounting and present values *)

Lemma mapM_spec {A B} (f : A -> result B) l v :
  mapM f l = Ok v ->
  length v = length l /\
  forall k da db, (k < length l)%nat -> f (nth k l da) = Ok (nth k v db).
Proof.
  revert v; induction l as [|a l IH]; intros v H; simpl in H.
  - injection H as <-. split; [reflexivity | simpl; intros; lia].
  - inv_bind H. inv_bind H. injection H as <-.
    destruct (IH _ E0) as [Hl Hn]. split; [simpl; congruence|].
    intros [|k] da db Hk; simpl in *; [exact E | apply Hn; lia].
Qed.

Lemma mapM_defined {A B} (f : A -> result B) l :
  (forall a, In a l -> exists b, f a = Ok b) -> exists v, mapM f l = Ok v.
Proof.
  induction l as [|a l IH]; intros H; simpl; eauto.
  destruct (H a (or_introl eq_refl)) as [b ->].
  destruct IH as [v ->]; [intros; apply H; right; assumption|].
  simpl. eauto.
Qed.

Lemma index_spec n b d :
  Py.index n b = Ok d ->
  (d < n)%nat /\ Py.bound n b = d /\
  ((0 <= b)%Z -> Z.of_nat d = b) /\
  ((b < 0)%Z -> Z.of_nat d = (Z.of_nat n + b)%Z).
Proof.
  unfold Py.index, Py.bound.
  destruct (Z.leb_spec 0 b) as [Hb|Hb].
  - destruct (Z.ltb_spec b (Z.of_nat n)) as [Hn|Hn]; [|discriminate].
    intros H; injection H as <-. repeat split; lia.
  - destruct (Z.leb_spec 0 (Z.of_nat n + b)) as [Hn|Hn]; [|discriminate].
    intros H; injection H as <-. repeat split; lia.
Qed.

Lemma index_defined n b :
  (- Z.of_nat n <= b < Z.of_nat n)%Z -> exists d, Py.index n b = Ok d.
Proof.
  intros H. unfold Py.index.
  destruct (Z.leb_spec 0 b).
  - destruct (Z.ltb_spec b (Z.of_nat n)); [eauto | lia].
  - destruct (Z.leb_spec 0 (Z.of_nat n + b)); [eauto | lia].
Qed.

Lemma dot_sigma row v w :
  length row = w -> length v = w ->
  forall lo k, (lo + k <= w)%nat ->
  sigma (fun t => nth t (zip_with Rmult row v) 0) lo k
  = sigma (fun t => nth t row 0 * nth t v 0) lo k.
Proof.
  intros Hr Hv lo k Hk. apply sigma_ext. intros t Ht.
  apply (zip_with_nth Rmult 0 0 0); lia.
Qed.

(** The three discounted sums of one row, as sums over periods. *)
Lemma row_pv row v w b d :
  length row = w -> length v = w -> Py.index w b = Ok d ->
  rsum (zip_with Rmult row v)
    = sigma (fun t => nth t row 0 * nth t v 0) 0 w /\
  rsum (zip_with Rmult (Py.slice_from b row) (Py.slice_from b v))
    = sigma (fun t => nth t row 0 * nth t v 0) d (w - d) /\
  rsum (zip_with Rmult (Py.slice_to b row) (Py.slice_to b v))
    = sigma (fun t => nth t row 0 * nth t v 0) 0 d.
Proof.
  intros Hr Hv Hd. destruct (index_spec _ _ _ Hd) as (Hlt & Hb & _).
  assert (Hz : length (zip_with Rmult row v) = w)
    by (rewrite zip_with_length; lia).
  unfold Py.slice_from, Py.slice_to. rewrite Hr, Hv, Hb.
  rewrite zip_with_skipn, zip_with_firstn.
  rewrite rsum_sigma, rsum_skipn_sigma, rsum_firstn_sigma by lia.
  rewrite Hz. repeat split; apply (dot_sigma row v w); auto; lia.
Qed.

Lemma map_nth_in {A} (f : A -> R) l i da :
  (i < length l)%nat -> nth i (map f l) 0 = f (nth i l da).
Proof.
  intros Hi. rewrite (nth_indep _ 0 (f da)) by (rewrite length_map; exact Hi).
  apply map_nth.
Qed.

Lemma mean_average l n f :
  length l = n -> (forall i, (i < n)%nat -> nth i l 0 = f i) ->
  mean l = average n f.
Proof.
  intros Hl Hn. unfold mean, average. rewrite rsum_sigma, Hl.
  f_equal. apply sigma_ext. intros i Hi. apply Hn. lia.
Qed.

Lemma sigma_plus f g lo k :
  sigma (fun t => f t + g t) lo k = sigma f lo k + sigma g lo k.
Proof.
  revert lo; induction k as [|k IH]; intros lo; simpl; [lra|].
  rewrite IH. lra.
Qed.

Lemma average_plus n f g :
  average n (fun s => f s + g s) = average n f + average n g.
Proof. unfold average. rewrite sigma_plus. unfold Rdiv. lra. Qed.

Lemma average_ext n f g :
  (forall s, (s < n)%nat -> f s = g s) -> average n f = average n g.
Proof.
  intros H. unfold average. f_equal. apply sigma_ext. intros; apply H; lia.
Qed.

Section ValuationFacts.

Variable cfg : Inputs.
Variable lstsq : list (R * R) -> vector -> R * R.

Let n := n_sim cfg.
Let w := T cfg.

Lemma discount_factors_spec dis :
  discount_factors cfg = Ok dis ->
  length dis = w /\
  forall i, (i < w)%nat ->
    1 + r cfg <> 0 /\
    nth i dis 0 = powerRZ (1 + r cfg) (- (Z.of_nat i + 1)).
Proof.
  unfold discount_factors. intros H. apply mapM_spec in H.
  destruct H as [Hl Hn]. rewrite length_seq in Hl, Hn.
  split; [exact Hl|]. intros i Hi.
  specialize (Hn i 0%nat 0 Hi). rewrite seq_nth in Hn by exact Hi.
  simpl in Hn. unfold Py.pow in Hn.
  destruct (Z.ltb_spec (- Z.of_nat i - 1) 0) as [_|Hge]; [|lia].
  destruct (Req_dec_T (1 + r cfg) 0) as [|Hne]; [discriminate|].
  injection Hn as Hn. split; [exact Hne|]. rewrite <- Hn. f_equal. lia.
Qed.

Lemma discount_factors_defined :
  1 + r cfg <> 0 -> exists dis, discount_factors cfg = Ok dis.
Proof.
  intros Hne. unfold discount_factors. apply mapM_defined.
  intros i _. unfold Py.pow.
  destruct (- Z.of_nat i - 1 <? 0)%Z; eauto.
  destruct (Req_dec_T (1 + r cfg) 0); [contradiction | eauto].
Qed.

Lemma pv_lists a dis d :
  shape n w a -> length dis = w -> Py.index w (buy_year cfg) = Ok d ->
  forall s, (s < n)%nat ->
    nth s (map rsum (mat_row Rmult a dis)) 0 = pv a dis s 0 w /\
    nth s (pv_from (buy_year cfg) a dis) 0 = pv a dis s d (w - d) /\
    nth s (pv_to (buy_year cfg) a dis) 0 = pv a dis s 0 d.
Proof.
  intros Ha Hdis Hd s Hs.
  pose proof (shape_nth n w a s Ha Hs) as Hrow.
  destruct (row_pv (nth s a []) dis w (buy_year cfg) d Hrow Hdis Hd)
    as (H1 & H2 & H3).
  assert (Hlen : (s < length a)%nat) by (destruct Ha as [-> _]; exact Hs).
  unfold pv_from, pv_to, mat_row, pv, entry. rewrite !map_map.
  split; [|split]; rewrite (map_nth_in _ a s []) by exact Hlen; assumption.
Qed.

Lemma valuation_spec price opex a v :
  shape n w price -> shape n w opex -> shape n w a ->
  valuation cfg lstsq price opex a = Ok v ->
  exists d,
    Py.index w (buy_year cfg) = Ok d /\
    discount_factors cfg = Ok (dis_fact v) /\
    (length (npv v) = n /\ length (npv_cont v) = n /\
     length (cv_pred v) = n /\ length (max_val v) = n /\ (1 <= n)%nat) /\
    (forall s, (s < n)%nat ->
       nth s (npv v) 0 = pv a (dis_fact v) s 0 w /\
       nth s (npv_cont v) 0 = pv a (dis_fact v) s d (w - d) /\
       nth s (cv_pred v) 0 =
         entry price s d * fst (Sk.coef_ (regr v))
         + entry opex s d * snd (Sk.coef_ (regr v))
         + Sk.intercept_ (regr v) /\
       nth s (max_val v) 0 = Rmax (nth s (cv_pred v) 0) (buyout cfg)) /\
    X v = combine (col d price) (col d opex) /\
    Sk.fit lstsq (X v) (npv_cont v) = Ok (regr v) /\
    max_val v = map (fun c => Rmax c (buyout cfg)) (cv_pred v) /\
    enpv_w_opt v =
      average n (fun s => pv a (dis_fact v) s 0 d) + mean (max_val v)
      - capex cfg /\
    enpv_wo_opt v = mean (npv v) - capex cfg /\
    opt_val v = enpv_w_opt v - enpv_wo_opt v /\
    mean (npv v) =
      average n (fun s => pv a (dis_fact v) s 0 d) + mean (npv_cont v) /\
    mean (cv_pred v) = mean (npv_cont v).
Proof.
  intros Hp Ho Ha H. unfold valuation in H.
  inv_bind H. rename a0 into dis. inv_bind H. rename a0 into d.
  inv_bind H. rename a0 into rg. injection H as <-. simpl.
  destruct (discount_factors_spec dis E) as [Hdis _].
  pose proof (pv_lists a dis d Ha Hdis E0) as Hpv.
  destruct (index_spec _ _ _ E0) as (Hd & _).
  assert (Ln : length a = n) by (destruct Ha; assumption).
  assert (Lp : length (col d price) = n)
    by (rewrite col_length; destruct Hp; assumption).
  assert (Lo : length (col d opex) = n)
    by (rewrite col_length; destruct Ho; assumption).
  assert (LX : length (combine (col d price) (col d opex)) = n)
    by (rewrite length_combine; lia).
  assert (Hn : (1 <= n)%nat).
  { apply fit_inv in E1. destruct E1 as [Hne _]. rewrite <- LX.
    destruct (combine (col d price) (col d opex)); [congruence|simpl; lia]. }
  assert (Lnpv : length (map rsum (mat_row Rmult a dis)) = n)
    by (unfold mat_row; rewrite !length_map; exact Ln).
  assert (Lcont : length (pv_from (buy_year cfg) a dis) = n)
    by (unfold pv_from, mat_row; rewrite !length_map; exact Ln).
  assert (Lpre : length (pv_to (buy_year cfg) a dis) = n)
    by (unfold pv_to, mat_row; rewrite !length_map; exact Ln).
  assert (Hmean_cont :
    mean (pv_from (buy_year cfg) a dis) = average n (fun s => pv a dis s d (w - d)))
    by (apply mean_average; [exact Lcont | intros; apply Hpv; assumption]).
  exists d. split; [exact E0|]. split; [exact E|].
  split.
  { unfold Sk.predict. rewrite !length_map. rewrite length_map in Lnpv.
    auto. }
  split.
  { intros s Hs. destruct (Hpv s Hs) as (H1 & H2 & _).
    split; [exact H1|]. split; [exact H2|].
    assert (Hcv : nth s (Sk.predict rg (combine (col d price) (col d opex))) 0
                  = entry price s d * fst (Sk.coef_ rg)
                    + entry opex s d * snd (Sk.coef_ rg) + Sk.intercept_ rg).
    { unfold Sk.predict.
      rewrite (map_nth_in _ _ s (0, 0)) by (rewrite LX; exact Hs).
      rewrite combine_nth by congruence. simpl fst. simpl snd.
      rewrite !col_nth; [reflexivity | |].
      - destruct Ho as [-> _]; exact Hs.
      - destruct Hp as [-> _]; exact Hs. }
    split; [exact Hcv|].
    rewrite (map_nth_in _ _ s 0)
      by (unfold Sk.predict; rewrite length_map, LX; exact Hs).
    reflexivity. }
  split; [reflexivity|]. split; [exact E1|]. split; [reflexivity|].
  split.
  { f_equal. f_equal. apply mean_average; [exact Lpre|].
    intros; apply Hpv; assumption. }
  split; [reflexivity|]. split; [reflexivity|].
  split.
  { rewrite Hmean_cont, <- average_plus.
    rewrite (mean_average _ n (fun s => pv a dis s 0 w))
      by (auto; intros; apply Hpv; assumption).
    apply average_ext. intros s Hs. unfold pv.
    replace w with (d + (w - d))%nat at 1 by lia.
    rewrite sigma_split. reflexivity. }
  eapply fit_mean; eauto.
Qed.

End ValuationFacts.
(** ** The script as a whole *)

Section ScriptFacts.

Variable gauss : Z -> nat -> R.
Variable junk_price junk_opex : nat -> nat -> R.
Variable lstsq : list (R * R) -> vector -> R * R.
Variable cfg : Inputs.

Let n := n_sim cfg.
Let w := T cfg.

Lemma simulate_spec g st :
  simulate cfg junk_price junk_opex g = Ok st ->
  (1 <= w)%nat /\
  shape n w (price st) /\ shape n w (opex st) /\
  rng st = advance cfg (w - 1) g /\
  col 0 (price st) = repeat (1 * price_0 cfg) n /\
  col 0 (opex st) = repeat (1 * opex_0 cfg) n /\
  (forall t, (1 <= t < w)%nat ->
     col t (price st) =
       zip_with (price_step cfg) (col (t - 1) (price st))
                (price_draws cfg (advance cfg (t - 1) g)) /\
     zip_withM (opex_step cfg) (col (t - 1) (opex st))
               (opex_draws cfg (advance cfg (t - 1) g))
       = Ok (col t (opex st))).
Proof.
  intros H.
  assert (Hw : (1 <= w)%nat).
  { unfold simulate, sim_init, init_matrix in H. unfold w.
    destruct (T cfg); [discriminate | lia]. }
  split; [exact Hw|].
  change (sim_prefix cfg junk_price junk_opex (w - 1) g = Ok st) in H.
  destruct (sim_prefix_spec cfg junk_price junk_opex (w - 1) g st
              ltac:(unfold w in *; lia) H)
    as (Hp & Ho & Hr & Hp0 & Ho0 & Hrec).
  repeat (split; [assumption|]).
  intros t Ht. apply Hrec. lia.
Qed.

Lemma script_inv run :
  script gauss junk_price junk_opex lstsq cfg = Ok run ->
  simulate cfg junk_price junk_opex (RandomState gauss 1) = Ok (paths run) /\
  cash_flows cfg (price (paths run)) (opex (paths run)) = Ok (flows run) /\
  valuation cfg lstsq (price (paths run)) (opex (paths run))
            (atcf (flows run)) = Ok (value run).
Proof.
  unfold script. intros H. inv_bind H. inv_bind H. inv_bind H.
  injection H as <-. simpl. auto.
Qed.

Lemma valuation_defined price opex a :
  shape n w price -> shape n w opex -> (1 <= n)%nat ->
  1 + r cfg <> 0 -> (- Z.of_nat w <= buy_year cfg < Z.of_nat w)%Z ->
  exists v, valuation cfg lstsq price opex a = Ok v.
Proof.
  intros Hp Ho Hn Hr Hb. unfold valuation.
  destruct (discount_factors_defined cfg Hr) as [dis ->]. cbn [bind].
  destruct (index_defined (T cfg) (buy_year cfg) Hb) as [d ->]. cbn [bind].
  assert (LX : length (combine (col d price) (col d opex)) = n).
  { rewrite length_combine, !col_length.
    destruct Hp as [-> _], Ho as [-> _]. lia. }
  unfold Sk.fit.
  destruct (combine (col d price) (col d opex)) as [|x X];
    [simpl in LX; lia|].
  simpl. eauto.
Qed.

Lemma script_defined :
  well_formed cfg -> exists run, script gauss junk_price junk_opex lstsq cfg = Ok run.
Proof.
  intros (HT & Hn & Ho0 & Hlr & Hr & Hd & Hb). unfold script.
  destruct (simulate_defined cfg junk_price junk_opex (RandomState gauss 1)
              HT Ho0 Hlr) as [st Hst].
  rewrite Hst. simpl.
  destruct (simulate_spec _ _ Hst) as (_ & Hp & Ho & _).
  destruct (cash_flows_defined cfg (price st) (opex st) Hd) as [cf Hcf].
  rewrite Hcf. simpl.
  destruct (valuation_defined (price st) (opex st) (atcf cf) Hp Ho Hn Hr Hb)
    as [v ->].
  simpl. eauto.
Qed.

End ScriptFacts.

(** * The claims *)

Lemma entry_col0 n w m x i :
  shape n w m -> col 0 m = repeat (1 * x) n -> (i < n)%nat ->
  entry m i 0 = x.
Proof.
  intros [Hn _] Hc Hi. rewrite <- col_nth by lia. rewrite Hc.
  rewrite (nth_indep _ 0 (1 * x)) by (rewrite repeat_length; exact Hi).
  rewrite nth_repeat. lra.
Qed.

(** C9.  After any number [k] of iterations of the simulation loop, and
    so at the end of the simulation (which is the state after [T - 1]
    iterations), column 0 of the price matrix holds [price_0] and column 0
    of the opex matrix holds [opex_0], for every simulation: the loop
    writes columns 1 to [T - 1] only. *)
Theorem first_column_initial cfg jp jo g k st :
  (k < T cfg)%nat ->
  sim_prefix cfg jp jo k g = Ok st ->
  simulate cfg jp jo g = sim_prefix cfg jp jo (T cfg - 1) g /\
  forall i, (i < n_sim cfg)%nat ->
    entry (price st) i 0 = price_0 cfg /\ entry (opex st) i 0 = opex_0 cfg.
Proof.
  intros Hk H. split; [reflexivity|].
  destruct (sim_prefix_spec cfg jp jo k g st Hk H)
    as (Hp & Ho & _ & Hp0 & Ho0 & _).
  intros i Hi. split.
  - eapply entry_col0; eauto.
  - eapply entry_col0; eauto.
Qed.

Lemma first_column_initial_witness :
  exists st,
    simulate small zero_fill zero_fill (RandomState flat_stream 1) = Ok st /\
    forall i, (i < 2)%nat ->
      entry (price st) i 0 = 50 /\ entry (opex st) i 0 = 25.
Proof.
  destruct (simulate_defined small zero_fill zero_fill
              (RandomState flat_stream 1)) as [st Hst];
    [simpl; lia | simpl; lra | simpl; lra |].
  exists st. split; [exact Hst|].
  apply (first_column_initial small zero_fill zero_fill
           (RandomState flat_stream 1) 2 st); [simpl; lia | exact Hst].
Defined.

(** C8, as stated, fails: with one period and [opex_0 = -1] the opex
    matrix is [[-1]], which the simulation never touches. *)
Lemma opex_positive_counterexample :
  ~ (forall cfg jp jo g st,
       simulate cfg jp jo g = Ok st ->
       forall i t, (i < n_sim cfg)%nat -> (t < T cfg)%nat ->
         0 < entry (opex st) i t).
Proof.
  intros H.
  specialize (H negative_opex zero_fill zero_fill (RandomState flat_stream 1)
                {| rng := RandomState flat_stream 1;
                   price := [[1 * 50]]; opex := [[1 * -1]] |}
                eq_refl 0%nat 0%nat).
  simpl in H. unfold entry in H. simpl in H.
  assert (0 < 1 * -1) by (apply H; lia). lra.
Qed.

(** C8, amended.  When the initial opex and the long-run opex are
    strictly positive (so that both logarithms are defined) the simulation
    is defined and every entry of the opex matrix is strictly positive:
    column 0 is [opex_0] and every later column is an exponential. *)
Theorem opex_positive cfg jp jo g :
  (1 <= T cfg)%nat -> 0 < opex_0 cfg -> 0 < opex_lr cfg ->
  exists st,
    simulate cfg jp jo g = Ok st /\
    forall i t, (i < n_sim cfg)%nat -> (t < T cfg)%nat ->
      0 < entry (opex st) i t.
Proof.
  intros HT H0 Hlr.
  destruct (simulate_defined cfg jp jo g HT H0 Hlr) as [st Hst].
  exists st. split; [exact Hst|].
  destruct (simulate_spec jp jo cfg g st Hst)
    as (_ & _ & Ho & _ & _ & Ho0 & Hrec).
  intros i t Hi Ht. destruct t as [|t].
  - rewrite (entry_col0 _ _ _ _ i Ho Ho0 Hi). exact H0.
  - destruct (Hrec (S t) ltac:(lia)) as [_ Hcol].
    apply opex_column_pos in Hcol. unfold all_pos in Hcol.
    rewrite Forall_forall in Hcol. apply Hcol.
    rewrite <- col_nth by (destruct Ho as [-> _]; exact Hi).
    apply nth_In. rewrite col_length. destruct Ho as [-> _]. exact Hi.
Qed.

Lemma opex_positive_witness :
  exists st,
    simulate small zero_fill zero_fill (RandomState flat_stream 1) = Ok st /\
    forall i t, (i < 2)%nat -> (t < 3)%nat -> 0 < entry (opex st) i t.
Proof.
  apply (opex_positive small zero_fill zero_fill (RandomState flat_stream 1));
    simpl; [lia | lra | lra].
Defined.

(** C3.  The outcome of the script is a function of the seed's stream of
    variates alone: two runs on the same stream give the same result
    (value or failure) whatever the memory handed out by [np.empty] held.
    The stream is consumed in period-major order: the simulation takes
    [(T - 1) * (n_sim + n_sim)] variates in all, and for each period
    [1 <= t < T] simulation [i] takes variate number
    [(t - 1) * (n_sim + n_sim) + i] for its price step and variate number
    [(t - 1) * (n_sim + n_sim) + n_sim + i] for its opex step. *)
Theorem draw_order_deterministic gauss lstsq cfg :
  (forall jp jo jp' jo',
     script gauss jp jo lstsq cfg = script gauss jp' jo' lstsq cfg) /\
  (forall jp jo st,
     simulate cfg jp jo (RandomState gauss 1) = Ok st ->
     Np.consumed (rng st) = ((T cfg - 1) * (n_sim cfg + n_sim cfg))%nat /\
     forall i t, (i < n_sim cfg)%nat -> (1 <= t < T cfg)%nat ->
       entry (price st) i t =
         price_step cfg (entry (price st) i (t - 1))
           (gauss 1%Z ((t - 1) * (n_sim cfg + n_sim cfg) + i)%nat) /\
       opex_step cfg (entry (opex st) i (t - 1))
           (gauss 1%Z ((t - 1) * (n_sim cfg + n_sim cfg) + n_sim cfg + i)%nat)
         = Ok (entry (opex st) i t)).
Proof.
  split.
  - intros jp jo jp' jo'. unfold script.
    rewrite (simulate_junk_irrelevant cfg jp jo jp' jo'). reflexivity.
  - intros jp jo st Hst.
    destruct (simulate_spec jp jo cfg _ st Hst)
      as (_ & Hp & Ho & Hrng & _ & _ & Hrec).
    split; [rewrite Hrng; reflexivity|].
    intros i t Hi Ht. destruct (Hrec t Ht) as [Hpc Hoc].
    assert (Lp : length (price st) = n_sim cfg) by (destruct Hp; assumption).
    assert (Lo : length (opex st) = n_sim cfg) by (destruct Ho; assumption).
    split.
    + rewrite <- !col_nth by lia. rewrite Hpc at 1.
      rewrite (zip_with_nth (price_step cfg) 0 0 0).
      * f_equal. unfold price_draws, advance, RandomState. simpl.
        apply nth_map_seq. exact Hi.
      * rewrite col_length; lia.
      * unfold price_draws. rewrite length_map, length_seq. exact Hi.
    + rewrite <- !col_nth by lia.
      pose proof (zip_withM_nth _ _ _ _ i Hoc) as Hnth.
      rewrite <- Hnth.
      * f_equal. unfold opex_draws, advance, RandomState. simpl.
        symmetry. rewrite nth_map_seq by exact Hi. reflexivity.
      * rewrite col_length; lia.
      * unfold opex_draws. rewrite length_map, length_seq. exact Hi.
Qed.

Lemma draw_order_deterministic_witness :
  exists st,
    simulate small zero_fill zero_fill (RandomState flat_stream 1) = Ok st /\
    Np.consumed (rng st) = 8%nat /\
    entry (price st) 1 2 =
      price_step small (entry (price st) 1 1) (flat_stream 1%Z 5%nat) /\
    opex_step small (entry (opex st) 1 1) (flat_stream 1%Z 7%nat)
      = Ok (entry (opex st) 1 2).
Proof.
  destruct (simulate_defined small zero_fill zero_fill
              (RandomState flat_stream 1)) as [st Hst];
    [simpl; lia | simpl; lra | simpl; lra |].
  exists st. split; [exact Hst|].
  destruct (proj2 (draw_order_deterministic flat_stream Sk.gram_solve small)
              zero_fill zero_fill st Hst) as [Hc Hord].
  split; [exact Hc|].
  apply (Hord 1%nat 2%nat); simpl; lia.
Defined.

(** C7.  On price and opex matrices of the script's shape, and a
    depreciation schedule no longer than the horizon, the cash flows are
    defined and for every simulation [i] and period [t]: the tax is
    [tax_rate * (btcf - capex * fraction)], where the fraction is the
    [t]-th schedule entry for [t] below the schedule's length and 0 from
    there on; the after-tax cash flow is [btcf - tax]; and nothing floors
    the tax: with a positive tax rate it is negative as soon as the
    before-tax cash flow is below the period's depreciation. *)
Theorem tax_and_atcf cfg price opex :
  shape (n_sim cfg) (T cfg) price -> shape (n_sim cfg) (T cfg) opex ->
  (length (depr_sch cfg) <= T cfg)%nat ->
  exists cf,
    cash_flows cfg price opex = Ok cf /\
    forall i t, (i < n_sim cfg)%nat -> (t < T cfg)%nat ->
      let fraction :=
        if (t <? length (depr_sch cfg))%nat then nth t (depr_sch cfg) 0
        else 0 in
      entry (tax cf) i t =
        tax_rate cfg * (entry (btcf cf) i t - capex cfg * fraction) /\
      entry (atcf cf) i t = entry (btcf cf) i t - entry (tax cf) i t /\
      (0 < tax_rate cfg -> entry (btcf cf) i t < capex cfg * fraction ->
       entry (tax cf) i t < 0).
Proof.
  intros Hp Ho Hd.
  destruct (cash_flows_defined cfg price opex Hd) as [cf Hcf].
  exists cf. split; [exact Hcf|].
  destruct (cash_flows_spec cfg price opex cf Hp Ho Hcf) as [_ Hent].
  intros i t Hi Ht fraction.
  destruct (Hent i t Hi Ht) as (_ & _ & _ & _ & Htax & Hatcf).
  assert (Hf : fraction = nth t (depr_sch cfg) 0).
  { unfold fraction. destruct (Nat.ltb_spec t (length (depr_sch cfg)));
      [reflexivity | symmetry; apply nth_overflow; assumption]. }
  rewrite Hf. split; [exact Htax|]. split; [exact Hatcf|].
  intros Hrate Hlow. rewrite Htax.
  assert (Hneg : entry (btcf cf) i t - capex cfg * nth t (depr_sch cfg) 0 < 0)
    by lra.
  nra.
Qed.

Lemma tax_and_atcf_witness :
  exists cf,
    cash_flows small [[50; 60; 70]; [50; 40; 30]] [[25; 26; 27]; [25; 24; 23]]
      = Ok cf /\
    entry (tax cf) 0 2 = 0.21 * (entry (btcf cf) 0 2 - 1250 * 0) /\
    entry (tax cf) 1 1 = 0.21 * (entry (btcf cf) 1 1 - 1250 * 0.2449).
Proof.
  assert (Hs : forall a b c a' b' c',
             shape (n_sim small) (T small) [[a; b; c]; [a'; b'; c']]).
  { intros. split; [reflexivity|]. repeat constructor. }
  assert (Hl : (length (depr_sch small) <= T small)%nat) by (simpl; lia).
  assert (H0 : (0 < n_sim small)%nat) by (simpl; lia).
  assert (H1 : (1 < n_sim small)%nat) by (simpl; lia).
  assert (T1 : (1 < T small)%nat) by (simpl; lia).
  assert (T2 : (2 < T small)%nat) by (simpl; lia).
  destruct (tax_and_atcf small _ _ (Hs 50 60 70 50 40 30)
              (Hs 25 26 27 25 24 23) Hl) as [cf [Hcf Hent]].
  exists cf. split; [exact Hcf|]. split.
  - destruct (Hent 0%nat 2%nat H0 T2) as [H _]. exact H.
  - destruct (Hent 1%nat 1%nat H1 T1) as [H _]. exact H.
Defined.

Lemma script_shapes gauss jp jo lstsq cfg run :
  script gauss jp jo lstsq cfg = Ok run ->
  shape (n_sim cfg) (T cfg) (price (paths run)) /\
  shape (n_sim cfg) (T cfg) (opex (paths run)) /\
  shape (n_sim cfg) (T cfg) (atcf (flows run)) /\
  valuation cfg lstsq (price (paths run)) (opex (paths run))
            (atcf (flows run)) = Ok (value run).
Proof.
  intros H. destruct (script_inv _ _ _ _ _ _ H) as (Hsim & Hcf & Hv).
  destruct (simulate_spec jp jo cfg _ _ Hsim) as (_ & Hp & Ho & _).
  destruct (cash_flows_spec cfg _ _ _ Hp Ho Hcf) as [Ha _].
  auto.
Qed.

(** C6.  In a run of the script, with [d] the period that [buy_year]
    designates ([buy_year] itself when it is not negative): the discount
    factor of period [i] is [(1 + r)] to the power [-(i + 1)]; the NPV of
    each simulation is the sum over the [T] periods of after-tax cash flow
    times discount factor; and its continuation value is the same sum
    over the periods [d <= t < T], the term of period [d] included. *)
Theorem discounting gauss jp jo lstsq cfg run :
  script gauss jp jo lstsq cfg = Ok run ->
  let v := value run in
  let a := atcf (flows run) in
  exists d,
    Py.index (T cfg) (buy_year cfg) = Ok d /\
    ((0 <= buy_year cfg)%Z -> Z.of_nat d = buy_year cfg) /\
    length (dis_fact v) = T cfg /\
    (forall i, (i < T cfg)%nat ->
       nth i (dis_fact v) 0 = powerRZ (1 + r cfg) (- (Z.of_nat i + 1))) /\
    (forall s, (s < n_sim cfg)%nat ->
       nth s (npv v) 0 =
         sigma (fun t => entry a s t * nth t (dis_fact v) 0) 0 (T cfg) /\
       nth s (npv_cont v) 0 =
         sigma (fun t => entry a s t * nth t (dis_fact v) 0) d (T cfg - d) /\
       nth s (npv_cont v) 0 =
         entry a s d * nth d (dis_fact v) 0
         + sigma (fun t => entry a s t * nth t (dis_fact v) 0)
                 (S d) (T cfg - S d)).
Proof.
  intros H v a.
  destruct (script_shapes _ _ _ _ _ _ H) as (Hp & Ho & Ha & Hv).
  destruct (valuation_spec cfg lstsq _ _ _ _ Hp Ho Ha Hv)
    as (d & Hd & Hdis & _ & Hs & _).
  destruct (index_spec _ _ _ Hd) as (Hlt & _ & Hnn & _).
  destruct (discount_factors_spec cfg _ Hdis) as [Hlen Hfac].
  exists d. split; [exact Hd|]. split; [exact Hnn|]. split; [exact Hlen|].
  split; [intros i Hi; apply Hfac; exact Hi|].
  intros s Hs'. destruct (Hs s Hs') as (H1 & H2 & _).
  split; [exact H1|]. split; [exact H2|].
  fold v in H2. rewrite H2. unfold pv.
  replace (T cfg - d)%nat with (S (T cfg - S d)) by lia. reflexivity.
Qed.

Lemma discounting_witness :
  exists run d,
    script flat_stream zero_fill zero_fill Sk.gram_solve small = Ok run /\
    Py.index 3 1 = Ok d /\
    nth 2 (dis_fact (value run)) 0 = powerRZ (1 + 0.05) (- 3).
Proof.
  destruct (script_defined flat_stream zero_fill zero_fill Sk.gram_solve small)
    as [run Hrun].
  { unfold well_formed. simpl. repeat split; try lia; lra. }
  destruct (discounting flat_stream zero_fill zero_fill Sk.gram_solve small
              run Hrun) as (d & Hd & _ & _ & Hfac & _).
  exists run, d. split; [exact Hrun|]. split; [exact Hd|].
  apply (Hfac 2%nat). simpl. lia.
Defined.

(** C4.  In a run of the script, with [d] the decision period: the
    expected NPV with the option is the mean over the simulations of the
    discounted after-tax cash flows of the periods before [d], plus the
    mean over the simulations of [max(cv_pred, buyout)], minus CAPEX; and
    the value floored is the fitted value of the regression of the
    continuation values on price and opex at period [d], evaluated at the
    simulation's own price and opex. *)
Theorem enpv_with_option gauss jp jo lstsq cfg run :
  script gauss jp jo lstsq cfg = Ok run ->
  let v := value run in
  let a := atcf (flows run) in
  let p := paths run in
  exists d,
    Py.index (T cfg) (buy_year cfg) = Ok d /\
    Sk.fit lstsq (combine (col d (price p)) (col d (opex p))) (npv_cont v)
      = Ok (regr v) /\
    (forall s, (s < n_sim cfg)%nat ->
       nth s (cv_pred v) 0 =
         entry (price p) s d * fst (Sk.coef_ (regr v))
         + entry (opex p) s d * snd (Sk.coef_ (regr v))
         + Sk.intercept_ (regr v) /\
       nth s (max_val v) 0 = Rmax (nth s (cv_pred v) 0) (buyout cfg)) /\
    enpv_w_opt v =
      average (n_sim cfg)
        (fun s => sigma (fun t => entry a s t * nth t (dis_fact v) 0) 0 d)
      + average (n_sim cfg) (fun s => Rmax (nth s (cv_pred v) 0) (buyout cfg))
      - capex cfg.
Proof.
  intros H v a p.
  destruct (script_shapes _ _ _ _ _ _ H) as (Hp & Ho & Ha & Hv).
  destruct (valuation_spec cfg lstsq _ _ _ _ Hp Ho Ha Hv)
    as (d & Hd & _ & (_ & _ & _ & Lmax & _) & Hs & HX & Hfit & _ & Hw & _).
  exists d. split; [exact Hd|]. split; [rewrite HX in Hfit; exact Hfit|].
  split; [intros s Hs'; destruct (Hs s Hs') as (_ & _ & H3 & H4); auto|].
  fold v in Hw. rewrite Hw. f_equal. f_equal.
  apply mean_average; [exact Lmax|].
  intros s Hs'. apply Hs. exact Hs'.
Qed.

(** The floor is applied to the fitted value, not to the realised
    continuation value: with realised continuation values 0 and 2, equal
    regressors and a buyout of 1, both predictions are the mean 1, so the
    second simulation is valued at 1 where flooring its realised value
    would give 2.  This holds whatever the least-squares solver returns. *)
Lemma floor_on_prediction lstsq :
  exists v,
    valuation two_paths lstsq [[1]; [1]] [[1]; [1]] [[0]; [2]] = Ok v /\
    nth 1 (npv_cont v) 0 = 2 /\
    nth 1 (cv_pred v) 0 = 1 /\
    nth 1 (max_val v) 0 = 1 /\
    Rmax (nth 1 (npv_cont v) 0) (buyout two_paths) = 2.
Proof.
  assert (Hs : forall x y, shape (n_sim two_paths) (T two_paths) [[x]; [y]]).
  { intros. split; [reflexivity | repeat constructor]. }
  destruct (valuation_defined lstsq two_paths [[1]; [1]] [[1]; [1]] [[0]; [2]]
              (Hs 1 1) (Hs 1 1)) as [v Hv].
  { simpl; lia. }
  { simpl; lra. }
  { simpl; lia. }
  exists v. split; [exact Hv|].
  destruct (valuation_spec two_paths lstsq _ _ _ _ (Hs 1 1) (Hs 1 1) (Hs 0 2) Hv)
    as (d & Hd & Hdis & (_ & Lcont & _) & Hent & HX & Hfit & _).
  assert (d = 0%nat) by (vm_compute in Hd; congruence). subst d.
  destruct (discount_factors_spec two_paths _ Hdis) as [_ Hfac].
  destruct (Hfac 0%nat) as [_ Hf0]; [simpl; lia|].
  simpl in Hf0.
  destruct (Hent 0%nat) as (_ & Hc0 & _); [simpl; lia|].
  destruct (Hent 1%nat) as (_ & Hc1 & Hp1 & Hm1); [simpl; lia|].
  unfold pv, entry in Hc0, Hc1. simpl in Hc0, Hc1. rewrite Hf0 in Hc0, Hc1.
  assert (Hy0 : nth 0 (npv_cont v) 0 = 0) by (rewrite Hc0; lra).
  assert (Hy1 : nth 1 (npv_cont v) 0 = 2) by (rewrite Hc1; lra).
  assert (Hmean : mean (npv_cont v) = 1).
  { rewrite (mean_average _ 2 (fun s => nth s (npv_cont v) 0))
      by (auto; exact Lcont).
    unfold average. simpl. rewrite Hy0, Hy1. lra. }
  destruct (fit_inv _ _ _ _ Hfit) as [_ Hb].
  rewrite HX, Hmean in Hb. unfold mean in Hb. simpl in Hb.
  assert (Hcv : nth 1 (cv_pred v) 0 = 1).
  { rewrite Hp1, Hb. unfold entry. simpl. lra. }
  split; [exact Hy1|]. split; [exact Hcv|].
  split; [rewrite Hm1, Hcv; simpl; apply Rmax_left; lra|].
  rewrite Hy1. simpl. apply Rmax_left. lra.
Qed.

Lemma enpv_with_option_witness :
  exists run,
    script flat_stream zero_fill zero_fill Sk.gram_solve small = Ok run /\
    enpv_w_opt (value run) =
      average 2 (fun s =>
        sigma (fun t => entry (atcf (flows run)) s t
                        * nth t (dis_fact (value run)) 0) 0 1)
      + average 2 (fun s => Rmax (nth s (cv_pred (value run)) 0) 100)
      - 1250.
Proof.
  destruct (script_defined flat_stream zero_fill zero_fill Sk.gram_solve small)
    as [run Hrun].
  { unfold well_formed. simpl. repeat split; try lia; lra. }
  destruct (enpv_with_option flat_stream zero_fill zero_fill Sk.gram_solve
              small run Hrun) as (d & Hd & _ & _ & Hw).
  exists run. split; [exact Hrun|].
  assert (d = 1%nat) by (vm_compute in Hd; congruence). subst d.
  exact Hw.
Defined.

(** C5.  In a run of the script, the expected NPV without the option is
    the mean over the simulations of the NPV over all [T] periods, minus
    CAPEX, and the option value is the expected NPV with the option minus
    the expected NPV without it. *)
Theorem enpv_without_option gauss jp jo lstsq cfg run :
  script gauss jp jo lstsq cfg = Ok run ->
  let v := value run in
  let a := atcf (flows run) in
  enpv_wo_opt v =
    average (n_sim cfg)
      (fun s => sigma (fun t => entry a s t * nth t (dis_fact v) 0) 0 (T cfg))
    - capex cfg /\
  enpv_wo_opt v = mean (npv v) - capex cfg /\
  opt_val v = enpv_w_opt v - enpv_wo_opt v.
Proof.
  intros H v a.
  destruct (script_shapes _ _ _ _ _ _ H) as (Hp & Ho & Ha & Hv).
  destruct (valuation_spec cfg lstsq _ _ _ _ Hp Ho Ha Hv)
    as (d & _ & _ & (Lnpv & _) & Hs & _ & _ & _ & _ & Hwo & Hopt & _).
  fold v in Hwo, Hopt. split; [|split; assumption].
  rewrite Hwo. f_equal. apply mean_average; [exact Lnpv|].
  intros s Hs'. apply Hs. exact Hs'.
Qed.

Lemma enpv_without_option_witness :
  exists run,
    script flat_stream zero_fill zero_fill Sk.gram_solve small = Ok run /\
    opt_val (value run)
      = enpv_w_opt (value run) - enpv_wo_opt (value run).
Proof.
  destruct (script_defined flat_stream zero_fill zero_fill Sk.gram_solve small)
    as [run Hrun].
  { unfold well_formed. simpl. repeat split; try lia; lra. }
  exists run. split; [exact Hrun|].
  apply (enpv_without_option flat_stream zero_fill zero_fill Sk.gram_solve
           small run Hrun).
Defined.

(** The option value is the mean of the floored predictions minus the
    mean of the predictions themselves. *)
Lemma opt_val_decomposition cfg lstsq price opex a v :
  shape (n_sim cfg) (T cfg) price -> shape (n_sim cfg) (T cfg) opex ->
  shape (n_sim cfg) (T cfg) a ->
  valuation cfg lstsq price opex a = Ok v ->
  max_val v = map (fun c => Rmax c (buyout cfg)) (cv_pred v) /\
  opt_val v = mean (max_val v) - mean (cv_pred v).
Proof.
  intros Hp Ho Ha Hv.
  destruct (valuation_spec cfg lstsq _ _ _ _ Hp Ho Ha Hv)
    as (d & _ & _ & _ & _ & _ & _ & Hmax & Hw & Hwo & Hopt & Hnpv & Hcv).
  split; [exact Hmax|]. rewrite Hopt, Hw, Hwo, Hnpv, Hcv. lra.
Qed.

(** C2.  In every run of the script the option value is non-negative:
    flooring can only raise a prediction, and the predictions of a
    regression with intercept have the mean of the continuation values. *)
Theorem opt_val_nonneg gauss jp jo lstsq cfg run :
  script gauss jp jo lstsq cfg = Ok run -> 0 <= opt_val (value run).
Proof.
  intros H.
  destruct (script_shapes _ _ _ _ _ _ H) as (Hp & Ho & Ha & Hv).
  destruct (opt_val_decomposition cfg lstsq _ _ _ _ Hp Ho Ha Hv)
    as [Hmax Hopt].
  rewrite Hopt, Hmax.
  assert (Hle : mean (cv_pred (value run))
                <= mean (map (fun c => Rmax c (buyout cfg))
                             (cv_pred (value run)))).
  { apply mean_le; [rewrite length_map; reflexivity|].
    rewrite <- (map_id (cv_pred (value run))) at 1.
    apply rsum_map_le. intros c _. apply Rmax_l. }
  lra.
Qed.

Lemma opt_val_nonneg_witness :
  exists run,
    script flat_stream zero_fill zero_fill Sk.gram_solve literal = Ok run /\
    0 <= opt_val (value run).
Proof.
  destruct (script_defined flat_stream zero_fill zero_fill Sk.gram_solve
              literal) as [run Hrun].
  { unfold well_formed. simpl. repeat split; try lia; lra. }
  exists run. split; [exact Hrun|].
  apply (opt_val_nonneg flat_stream zero_fill zero_fill Sk.gram_solve
           literal run Hrun).
Defined.

(** C1.  In a run of the script with [buyout = 0] in which every
    predicted continuation value is non-negative, the expected NPV with
    the option equals the expected NPV without it, and the option value
    is 0. *)
Theorem zero_buyout_no_value gauss jp jo lstsq cfg run :
  script gauss jp jo lstsq cfg = Ok run ->
  buyout cfg = 0 ->
  Forall (fun c => 0 <= c) (cv_pred (value run)) ->
  enpv_w_opt (value run) = enpv_wo_opt (value run) /\
  opt_val (value run) = 0.
Proof.
  intros H Hb Hpos.
  destruct (script_shapes _ _ _ _ _ _ H) as (Hp & Ho & Ha & Hv).
  destruct (opt_val_decomposition cfg lstsq _ _ _ _ Hp Ho Ha Hv)
    as [Hmax Hopt].
  destruct (valuation_spec cfg lstsq _ _ _ _ Hp Ho Ha Hv)
    as (d & _ & _ & _ & _ & _ & _ & _ & _ & _ & Hdiff & _).
  assert (Hsame : max_val (value run) = cv_pred (value run)).
  { rewrite Hmax, Hb. rewrite <- (map_id (cv_pred (value run))) at 2.
    apply map_ext_in. intros c Hc. rewrite Forall_forall in Hpos.
    apply Rmax_left. apply Hpos. exact Hc. }
  assert (Hz : opt_val (value run) = 0) by (rewrite Hopt, Hsame; lra).
  split; [lra | exact Hz].
Qed.

(** *** A run whose predictions are all zero *)

Lemma sigma_zero f lo k :
  (forall t, (lo <= t < lo + k)%nat -> f t = 0) -> sigma f lo k = 0.
Proof.
  revert lo; induction k as [|k IH]; intros lo H; simpl; [reflexivity|].
  rewrite (H lo) by lia. rewrite IH by (intros; apply H; lia). lra.
Qed.

Lemma rsum_zip_zero a y :
  Forall (fun v => v = 0) y -> rsum (zip_with Rmult a y) = 0.
Proof.
  intros Hy. revert a; induction Hy as [|v y Hv Hy IH]; intros [|x a];
    simpl; auto.
  rewrite IH, Hv. lra.
Qed.

Lemma gram_solve_zero_target Xc yc :
  Forall (fun v => v = 0) yc -> Sk.gram_solve Xc yc = (0, 0).
Proof.
  intros Hy. unfold Sk.gram_solve.
  rewrite !(rsum_zip_zero _ yc Hy).
  destruct (Req_dec_T _ 0); [destruct (Req_dec_T _ 0)|];
    f_equal; unfold Rdiv; ring.
Qed.

Lemma fit_coef lstsq X y regr :
  Sk.fit lstsq X y = Ok regr ->
  Sk.coef_ regr =
    lstsq (map (fun x => (fst x - mean (map fst X), snd x - mean (map snd X))) X)
          (map (fun v => v - mean y) y).
Proof.
  unfold Sk.fit. destruct X as [|x X]; [discriminate|].
  intros H. injection H as <-. reflexivity.
Qed.

Lemma zero_flows_zero_predictions cfg price opex a v :
  shape (n_sim cfg) (T cfg) price -> shape (n_sim cfg) (T cfg) opex ->
  shape (n_sim cfg) (T cfg) a ->
  (forall s t, (s < n_sim cfg)%nat -> (t < T cfg)%nat -> entry a s t = 0) ->
  valuation cfg Sk.gram_solve price opex a = Ok v ->
  Forall (fun c => c = 0) (cv_pred v).
Proof.
  intros Hp Ho Ha Hzero Hv.
  destruct (valuation_spec cfg Sk.gram_solve _ _ _ _ Hp Ho Ha Hv)
    as (d & Hd & _ & (_ & Lcont & Lcv & _ & Hn) & Hs & _ & Hfit & _).
  destruct (index_spec _ _ _ Hd) as (Hlt & _).
  assert (Hy : Forall (fun y => y = 0) (npv_cont v)).
  { apply Forall_nth. intros s dflt Hs'. rewrite Lcont in Hs'.
    rewrite (nth_indep _ dflt 0) by (rewrite Lcont; exact Hs').
    destruct (Hs s Hs') as (_ & -> & _). unfold pv.
    apply sigma_zero. intros t Ht. rewrite Hzero by lia. lra. }
  assert (Hmean : mean (npv_cont v) = 0).
  { unfold mean. replace (rsum (npv_cont v)) with 0; [unfold Rdiv; ring|].
    symmetry. clear - Hy. induction Hy as [|y l Hy _ IH]; simpl;
      [reflexivity | rewrite Hy, IH; lra]. }
  assert (Hc : Sk.coef_ (regr v) = (0, 0)).
  { rewrite (fit_coef _ _ _ _ Hfit). apply gram_solve_zero_target.
    apply Forall_map. eapply Forall_impl; [|exact Hy].
    intros y ->. simpl. rewrite Hmean. lra. }
  destruct (fit_inv _ _ _ _ Hfit) as [_ Hb].
  apply Forall_nth. intros s dflt Hs'. rewrite Lcv in Hs'.
  rewrite (nth_indep _ dflt 0) by (rewrite Lcv; exact Hs').
  destruct (Hs s Hs') as (_ & _ & -> & _).
  rewrite Hb, Hc, Hmean. simpl. lra.
Qed.

Lemma taxed_away_flows price opex cf :
  shape 2 2 price -> shape 2 2 opex ->
  cash_flows taxed_away price opex = Ok cf ->
  forall s t, (s < 2)%nat -> (t < 2)%nat -> entry (atcf cf) s t = 0.
Proof.
  intros Hp Ho Hcf s t Hs Ht.
  destruct (cash_flows_spec taxed_away price opex cf Hp Ho Hcf) as [_ Hent].
  destruct (Hent s t Hs Ht) as (_ & _ & _ & _ & Htax & Hatcf).
  rewrite Hatcf, Htax. simpl. lra.
Qed.

Lemma zero_buyout_no_value_witness :
  exists run,
    script flat_stream zero_fill zero_fill Sk.gram_solve taxed_away = Ok run /\
    enpv_w_opt (value run) = enpv_wo_opt (value run) /\
    opt_val (value run) = 0.
Proof.
  destruct (script_defined flat_stream zero_fill zero_fill Sk.gram_solve
              taxed_away) as [run Hrun].
  { unfold well_formed. simpl. repeat split; try lia; lra. }
  exists run. split; [exact Hrun|].
  apply (zero_buyout_no_value flat_stream zero_fill zero_fill Sk.gram_solve
           taxed_away run Hrun); [reflexivity|].
  destruct (script_shapes _ _ _ _ _ _ Hrun) as (Hp & Ho & Ha & Hv).
  destruct (script_inv _ _ _ _ _ _ Hrun) as (_ & Hcf & _).
  eapply Forall_impl;
    [| exact (zero_flows_zero_predictions taxed_away _ _ _ _ Hp Ho Ha
                (taxed_away_flows _ _ _ Hp Ho Hcf) Hv)].
  intros c ->. apply Rle_refl.
Defined.

Lemma rsum_map_scale c l : rsum (map (fun f => c * f) l) = c * rsum l.
Proof. induction l as [|x l IH]; simpl; [lra | rewrite IH; lra]. Qed.

Lemma rsum_repeat_zero k : rsum (repeat 0 k) = 0.
Proof. induction k as [|k IH]; simpl; [reflexivity | rewrite IH; lra]. Qed.

Lemma depr_padded_eq cfg d :
  depr_padded cfg = Ok d ->
  d = depr_sch cfg ++ repeat 0 (T cfg - length (depr_sch cfg)).
Proof.
  unfold depr_padded, Np.zeros. intros H.
  destruct (Z.ltb_spec (Z.of_nat (T cfg) - Z.of_nat (length (depr_sch cfg))) 0)
    as [Hlt|Hge]; simpl in H; [discriminate|].
  injection H as <-. f_equal. f_equal. lia.
Qed.

(** C10, as stated, fails: the eight fractions of the script's schedule
    do not sum to 9999/10000. *)
Lemma macrs7_sum_counterexample : ~ (Qsum macrs7 == 9999 # 10000)%Q.
Proof. vm_compute. discriminate. Qed.

(** C10, amended.  The eight fractions of the script's schedule sum to
    exactly 1, which is at most 1; so whenever that schedule is applied,
    the depreciation deducted over the horizon (the sum of the vector
    [capex * np.r_[depr_sch, zeros]]) is exactly CAPEX and does not exceed
    it. *)
Theorem macrs7_total cfg d :
  depr_sch cfg = map Q2R macrs7 ->
  depr_padded cfg = Ok d ->
  (Qsum macrs7 == 1)%Q /\ (Qsum macrs7 <= 1)%Q /\
  rsum (depr_sch cfg) = 1 /\
  rsum (map (fun f => capex cfg * f) d) = capex cfg /\
  rsum (map (fun f => capex cfg * f) d) <= capex cfg.
Proof.
  intros Hsch Hd.
  assert (Hsum : rsum (depr_sch cfg) = 1).
  { rewrite Hsch. unfold macrs7, Q2R. simpl. lra. }
  assert (Htot : rsum (map (fun f => capex cfg * f) d) = capex cfg).
  { rewrite (depr_padded_eq cfg d Hd), rsum_map_scale, rsum_app.
    rewrite rsum_repeat_zero, Hsum. lra. }
  split; [reflexivity|]. split; [vm_compute; discriminate|].
  split; [exact Hsum|]. split; [exact Htot|].
  rewrite Htot. apply Rle_refl.
Qed.

Lemma macrs7_total_witness :
  rsum (map (fun f => 1250 * f) (map Q2R macrs7 ++ [0; 0])) = 1250 /\
  rsum (map (fun f => 1250 * f) (map Q2R macrs7 ++ [0; 0])) <= 1250.
Proof.
  destruct (macrs7_total literal (map Q2R macrs7 ++ [0; 0]) eq_refl eq_refl)
    as (_ & _ & _ & Htot & Hle).
  split; [exact Htot | exact Hle].
Defined.

(** * Further properties of the script *)

(** ** Shapes and failures *)

Lemma path_recurrence cfg jp jo g st :
  simulate cfg jp jo g = Ok st ->
  forall i t, (i < n_sim cfg)%nat -> (1 <= t < T cfg)%nat ->
    entry (price st) i t =
      price_step cfg (entry (price st) i (t - 1))
        (Np.normals g
           (Np.consumed g + (t - 1) * (n_sim cfg + n_sim cfg) + i)%nat) /\
    opex_step cfg (entry (opex st) i (t - 1))
        (Np.normals g
           (Np.consumed g + (t - 1) * (n_sim cfg + n_sim cfg)
            + n_sim cfg + i)%nat)
      = Ok (entry (opex st) i t).
Proof.
  intros Hst i t Hi Ht.
  destruct (simulate_spec jp jo cfg g st Hst)
    as (_ & Hp & Ho & _ & _ & _ & Hrec).
  destruct (Hrec t Ht) as [Hpc Hoc].
  assert (Lp : length (price st) = n_sim cfg) by (destruct Hp; assumption).
  assert (Lo : length (opex st) = n_sim cfg) by (destruct Ho; assumption).
  split.
  - rewrite <- !col_nth by lia. rewrite Hpc at 1.
    rewrite (zip_with_nth (price_step cfg) 0 0 0).
    + f_equal. unfold price_draws, advance. simpl.
      apply nth_map_seq. exact Hi.
    + rewrite col_length; lia.
    + unfold price_draws. rewrite length_map, length_seq. exact Hi.
  - rewrite <- !col_nth by lia.
    pose proof (zip_withM_nth _ _ _ _ i Hoc) as Hnth.
    rewrite <- Hnth.
    + f_equal. unfold opex_draws, advance. simpl.
      symmetry. apply nth_map_seq. exact Hi.
    + rewrite col_length; lia.
    + unfold opex_draws. rewrite length_map, length_seq. exact Hi.
Qed.

(** X1.  Every array of a run is rectangular: the price, opex and
    after-tax cash-flow matrices are [n_sim] by [T], there are [T]
    discount factors, and the NPV, continuation-value, prediction and
    floored-value vectors have one entry per simulation, of which there
    is at least one. *)
Theorem run_shapes gauss jp jo lstsq cfg run :
  script gauss jp jo lstsq cfg = Ok run ->
  (1 <= n_sim cfg)%nat /\ (1 <= T cfg)%nat /\
  shape (n_sim cfg) (T cfg) (price (paths run)) /\
  shape (n_sim cfg) (T cfg) (opex (paths run)) /\
  shape (n_sim cfg) (T cfg) (btcf (flows run)) /\
  shape (n_sim cfg) (T cfg) (tax (flows run)) /\
  shape (n_sim cfg) (T cfg) (atcf (flows run)) /\
  length (dis_fact (value run)) = T cfg /\
  length (npv (value run)) = n_sim cfg /\
  length (npv_cont (value run)) = n_sim cfg /\
  length (cv_pred (value run)) = n_sim cfg /\
  length (max_val (value run)) = n_sim cfg.
Proof.
  intros H. destruct (script_inv _ _ _ _ _ _ H) as (Hsim & Hcf & Hv).
  destruct (simulate_spec jp jo cfg _ _ Hsim) as (HT & Hp & Ho & _).
  destruct (cash_flows_spec cfg _ _ _ Hp Ho Hcf) as [Ha _].
  destruct (valuation_spec cfg lstsq _ _ _ _ Hp Ho Ha Hv)
    as (d & _ & Hdis & (L1 & L2 & L3 & L4 & Hn) & _).
  destruct (discount_factors_spec cfg _ Hdis) as [Ldis _].
  assert (Hb : shape (n_sim cfg) (T cfg) (btcf (flows run)) /\
               shape (n_sim cfg) (T cfg) (tax (flows run))).
  { clear - Hp Ho Hcf. unfold cash_flows in Hcf. inv_bind Hcf.
    destruct (depr_padded_spec cfg a E) as (_ & Hd & _).
    injection Hcf as <-. simpl.
    assert (S4 : shape (n_sim cfg) (T cfg)
              (mat_zip Rminus
                 (mat_zip Rminus (mat_row Rmult (price (paths run)) (quant cfg))
                    (mat_map (fun x => x * roy_rate cfg)
                       (mat_row Rmult (price (paths run)) (quant cfg))))
                 (opex (paths run)))).
    { apply mat_zip_shape; [|exact Ho]. apply mat_zip_shape;
        [|apply mat_map_shape]; apply mat_row_shape; auto using quant_length. }
    split; [exact S4|]. apply mat_map_shape, mat_row_shape; [exact S4|].
    rewrite length_map. exact Hd. }
  destruct Hb as [Hb Ht]. repeat (split; [assumption|]). assumption.
Qed.

Lemma run_shapes_witness :
  exists run,
    script flat_stream zero_fill zero_fill Sk.gram_solve small = Ok run /\
    shape 2 3 (atcf (flows run)) /\ length (cv_pred (value run)) = 2%nat.
Proof.
  destruct (script_defined flat_stream zero_fill zero_fill Sk.gram_solve small)
    as [run Hrun].
  { unfold well_formed. simpl. repeat split; try lia; lra. }
  exists run. split; [exact Hrun|].
  destruct (run_shapes flat_stream zero_fill zero_fill Sk.gram_solve small
              run Hrun) as (_ & _ & _ & _ & _ & _ & Ha & _ & _ & _ & Lc & _).
  split; [exact Ha | exact Lc].
Defined.

Lemma cash_flows_long_schedule cfg price opex :
  (T cfg < length (depr_sch cfg))%nat ->
  cash_flows cfg price opex = Err ValueError.
Proof.
  intros H. unfold cash_flows, depr_padded, Np.zeros.
  destruct (Z.ltb_spec (Z.of_nat (T cfg) - Z.of_nat (length (depr_sch cfg))) 0);
    [reflexivity | lia].
Qed.

Lemma cash_flows_inv cfg price opex cf :
  cash_flows cfg price opex = Ok cf -> (length (depr_sch cfg) <= T cfg)%nat.
Proof.
  intros H. destruct (Nat.le_gt_cases (length (depr_sch cfg)) (T cfg)) as [|Hgt];
    [assumption|].
  rewrite (cash_flows_long_schedule cfg price opex Hgt) in H. discriminate.
Qed.


Lemma index_out_of_range n b :
  ~ (- Z.of_nat n <= b < Z.of_nat n)%Z -> Py.index n b = Err IndexError.
Proof.
  intros H. unfold Py.index.
  destruct (Z.leb_spec 0 b).
  - destruct (Z.ltb_spec b (Z.of_nat n)); [lia | reflexivity].
  - destruct (Z.leb_spec 0 (Z.of_nat n + b)); [lia | reflexivity].
Qed.

Lemma index_range n b d :
  Py.index n b = Ok d -> (- Z.of_nat n <= b < Z.of_nat n)%Z.
Proof.
  intros H.
  destruct (Z_le_dec (- Z.of_nat n) b) as [H1|H1];
    [destruct (Z_lt_dec b (Z.of_nat n)) as [H2|H2]; [lia|] |];
    rewrite index_out_of_range in H by lia; discriminate.
Qed.



(** X3.  When both logarithms of the opex step are defined
    ([opex_0 > 0] and [opex_lr > 0]), the script runs to its end exactly
    when there is at least one period and one simulation, [r] is not -1,
    the depreciation schedule is no longer than the horizon and
    [buy_year] lies in [-T, T). *)
Theorem script_ok_iff gauss jp jo lstsq cfg :
  0 < opex_0 cfg -> 0 < opex_lr cfg ->
  ((exists run, script gauss jp jo lstsq cfg = Ok run) <->
   (1 <= T cfg)%nat /\ (1 <= n_sim cfg)%nat /\ 1 + r cfg <> 0 /\
   (length (depr_sch cfg) <= T cfg)%nat /\
   (- Z.of_nat (T cfg) <= buy_year cfg < Z.of_nat (T cfg))%Z).
Proof.
  intros H0 Hlr. split.
  - intros [run H]. destruct (script_inv _ _ _ _ _ _ H) as (Hsim & Hcf & Hv).
    destruct (simulate_spec jp jo cfg _ _ Hsim) as (HT & Hp & Ho & _).
    destruct (cash_flows_spec cfg _ _ _ Hp Ho Hcf) as [Ha _].
    destruct (valuation_spec cfg lstsq _ _ _ _ Hp Ho Ha Hv)
      as (d & Hd & Hdis & (_ & _ & _ & _ & Hn) & _).
    destruct (discount_factors_spec cfg _ Hdis) as [_ Hfac].
    destruct (Hfac 0%nat HT) as [Hr _].
    split; [exact HT|]. split; [exact Hn|]. split; [exact Hr|].
    split; [eapply cash_flows_inv; eauto | eapply index_range; eauto].
  - intros (HT & Hn & Hr & Hlen & Hb). apply script_defined.
    unfold well_formed. auto 10.
Qed.

Lemma script_ok_iff_witness :
  (exists run,
     script flat_stream zero_fill zero_fill Sk.gram_solve literal = Ok run) <->
  (1 <= 10)%nat /\ (1 <= 1000)%nat /\ 1 + 0.05 <> 0 /\
  (8 <= 10)%nat /\ (- 10 <= 5 < 10)%Z.
Proof.
  apply (script_ok_iff flat_stream zero_fill zero_fill Sk.gram_solve literal);
    simpl; lra.
Defined.

(** ** Quantities and paths *)

Lemma quant_nth cfg i :
  (i < T cfg)%nat ->
  nth i (quant cfg) 0
  = Rpower 10 (1 + INR i * ((0 - 1) / INR (T cfg - 1))).
Proof.
  intros Hi. unfold quant, Np.logspace, Np.linspace.
  rewrite map_map. apply nth_map_seq. exact Hi.
Qed.

(** X4.  The quantity schedule [np.logspace(1, 0, T)] has one entry per
    period, all strictly positive; it starts at 10, ends at 1 when there
    are at least two periods, and is strictly decreasing. *)
Theorem quant_profile cfg :
  length (quant cfg) = T cfg /\
  (forall i, (i < T cfg)%nat -> 0 < nth i (quant cfg) 0) /\
  ((1 <= T cfg)%nat -> nth 0 (quant cfg) 0 = 10) /\
  ((2 <= T cfg)%nat -> nth (T cfg - 1) (quant cfg) 0 = 1) /\
  (forall i j, (i < j < T cfg)%nat ->
     nth j (quant cfg) 0 < nth i (quant cfg) 0).
Proof.
  split; [apply quant_length|]. split.
  { intros i Hi. rewrite quant_nth by exact Hi. unfold Rpower. apply exp_pos. }
  split.
  { intros HT. rewrite quant_nth by lia. simpl INR.
    replace (1 + 0 * ((0 - 1) / INR (T cfg - 1))) with 1 by lra.
    apply Rpower_1. lra. }
  split.
  { intros HT. rewrite quant_nth by lia.
    assert (Hne : INR (T cfg - 1) <> 0) by (apply not_0_INR; lia).
    replace (1 + INR (T cfg - 1) * ((0 - 1) / INR (T cfg - 1))) with 0
      by (field; exact Hne).
    apply Rpower_O. lra. }
  intros i j Hij. rewrite !quant_nth by lia.
  apply Rpower_lt; [lra|].
  assert (Hpos : 0 < INR (T cfg - 1)) by (apply lt_0_INR; lia).
  assert (Hlt : INR i < INR j) by (apply lt_INR; lia).
  assert (Hc : (0 - 1) / INR (T cfg - 1) < 0).
  { unfold Rdiv. apply Ropp_lt_cancel. rewrite Ropp_0.
    replace (- ((0 - 1) * / INR (T cfg - 1))) with (/ INR (T cfg - 1)) by lra.
    apply Rinv_0_lt_compat. exact Hpos. }
  nra.
Qed.

Lemma quant_profile_witness :
  nth 0 (quant literal) 0 = 10 /\ nth 9 (quant literal) 0 = 1 /\
  nth 5 (quant literal) 0 < nth 4 (quant literal) 0.
Proof.
  destruct (quant_profile literal) as (_ & _ & Hfirst & Hlast & Hdec).
  split; [apply Hfirst; simpl; lia|].
  split; [apply Hlast; simpl; lia | apply Hdec; simpl; lia].
Defined.









(** ** Cash flows and discounting *)









(** ** The exercise rule *)








(** ** Changing the offer *)

Lemma valuation_buyout_change cfg lstsq p o a b b' v v' :
  valuation (with_buyout b cfg) lstsq p o a = Ok v ->
  valuation (with_buyout b' cfg) lstsq p o a = Ok v' ->
  cv_pred v' = cv_pred v /\
  npv_cont v' = npv_cont v /\
  enpv_wo_opt v' = enpv_wo_opt v /\
  max_val v = map (fun c => Rmax c b) (cv_pred v) /\
  max_val v' = map (fun c => Rmax c b') (cv_pred v) /\
  enpv_w_opt v' - enpv_w_opt v = mean (max_val v') - mean (max_val v) /\
  opt_val v' - opt_val v = mean (max_val v') - mean (max_val v).
Proof.
  unfold valuation.
  change (discount_factors (with_buyout b cfg)) with (discount_factors cfg).
  change (discount_factors (with_buyout b' cfg)) with (discount_factors cfg).
  cbn [with_buyout T buy_year buyout capex].
  intros H1 H2.
  inv_bind H1. inv_bind H1. inv_bind H1.
  rewrite E in H2. cbn [bind] in H2. rewrite E0 in H2. cbn [bind] in H2.
  rewrite E1 in H2. cbn [bind] in H2.
  injection H1 as <-. injection H2 as <-. simpl.
  repeat split; try reflexivity; ring.
Qed.

Lemma Rmax_mono_r c b b' : b <= b' -> Rmax c b <= Rmax c b'.
Proof.
  intros H. unfold Rmax. destruct (Rle_dec c b), (Rle_dec c b'); lra.
Qed.

(** X13.  Raising the buyout price, everything else unchanged, leaves the
    simulated paths, the cash flows, the predictions and the expected
    NPV without the option as they are, and can only raise the expected
    NPV with the option and the option value. *)
Theorem buyout_monotone gauss jp jo lstsq cfg b b' run run' :
  script gauss jp jo lstsq (with_buyout b cfg) = Ok run ->
  script gauss jp jo lstsq (with_buyout b' cfg) = Ok run' ->
  b <= b' ->
  paths run' = paths run /\ flows run' = flows run /\
  cv_pred (value run') = cv_pred (value run) /\
  enpv_wo_opt (value run') = enpv_wo_opt (value run) /\
  enpv_w_opt (value run) <= enpv_w_opt (value run') /\
  opt_val (value run) <= opt_val (value run').
Proof.
  intros H H' Hb.
  destruct (script_inv _ _ _ _ _ _ H) as (Hsim & Hcf & Hv).
  destruct (script_inv _ _ _ _ _ _ H') as (Hsim' & Hcf' & Hv').
  change (simulate cfg jp jo (RandomState gauss 1) = Ok (paths run)) in Hsim.
  change (simulate cfg jp jo (RandomState gauss 1) = Ok (paths run')) in Hsim'.
  assert (Hpaths : paths run' = paths run) by congruence.
  rewrite Hpaths in Hcf', Hv'.
  change (cash_flows cfg (price (paths run)) (opex (paths run))
          = Ok (flows run)) in Hcf.
  change (cash_flows cfg (price (paths run)) (opex (paths run))
          = Ok (flows run')) in Hcf'.
  assert (Hflows : flows run' = flows run) by congruence.
  rewrite Hflows in Hv'.
  destruct (valuation_buyout_change cfg lstsq _ _ _ b b' _ _ Hv Hv')
    as (Hcv & _ & Hwo & Hm & Hm' & Hw & Hopt).
  assert (Hle : mean (max_val (value run)) <= mean (max_val (value run'))).
  { rewrite Hm, Hm'. apply mean_le; [rewrite !length_map; reflexivity|].
    apply rsum_map_le. intros c _. apply Rmax_mono_r. exact Hb. }
  repeat (split; [assumption|]). split; lra.
Qed.

Lemma buyout_monotone_witness :
  exists run run',
    script flat_stream zero_fill zero_fill Sk.gram_solve
      (with_buyout 100 small) = Ok run /\
    script flat_stream zero_fill zero_fill Sk.gram_solve
      (with_buyout 150 small) = Ok run' /\
    opt_val (value run) <= opt_val (value run').
Proof.
  destruct (script_defined flat_stream zero_fill zero_fill Sk.gram_solve
              (with_buyout 100 small)) as [run Hrun].
  { unfold well_formed. simpl. repeat split; try lia; lra. }
  destruct (script_defined flat_stream zero_fill zero_fill Sk.gram_solve
              (with_buyout 150 small)) as [run' Hrun'].
  { unfold well_formed. simpl. repeat split; try lia; lra. }
  exists run, run'. split; [exact Hrun|]. split; [exact Hrun'|].
  apply (buyout_monotone flat_stream zero_fill zero_fill Sk.gram_solve small
           100 150 run run' Hrun Hrun'). lra.
Defined.

Lemma bound_negative n b :
  (- Z.of_nat n <= b < 0)%Z -> Py.bound n b = Py.bound n (Z.of_nat n + b).
Proof.
  intros H. unfold Py.bound.
  destruct (Z.leb_spec 0 b); [lia|].
  destruct (Z.leb_spec 0 (Z.of_nat n + b)); lia.
Qed.

Lemma index_negative n b :
  (- Z.of_nat n <= b < 0)%Z -> Py.index n b = Py.index n (Z.of_nat n + b).
Proof.
  intros H. unfold Py.index.
  destruct (Z.leb_spec 0 b); [lia|].
  destruct (Z.leb_spec 0 (Z.of_nat n + b)); [|lia].
  destruct (Z.ltb_spec (Z.of_nat n + b) (Z.of_nat n)); [reflexivity | lia].
Qed.

Lemma slices_negative n w a dis b :
  shape n w a -> length dis = w -> (- Z.of_nat w <= b < 0)%Z ->
  pv_from b a dis = pv_from (Z.of_nat w + b) a dis /\
  pv_to b a dis = pv_to (Z.of_nat w + b) a dis.
Proof.
  intros [_ Hw] Hdis Hb. unfold pv_from, pv_to, mat_row.
  unfold Py.slice_from, Py.slice_to. rewrite Hdis, (bound_negative w b Hb).
  rewrite !map_map. rewrite Forall_forall in Hw.
  split; apply map_ext_in; intros row Hrow;
    rewrite (Hw row Hrow), (bound_negative w b Hb); reflexivity.
Qed.

Lemma valuation_negative_index cfg lstsq p o a b :
  shape (n_sim cfg) (T cfg) a -> (- Z.of_nat (T cfg) <= b < 0)%Z ->
  valuation (with_buy_year b cfg) lstsq p o a
  = valuation (with_buy_year (Z.of_nat (T cfg) + b) cfg) lstsq p o a.
Proof.
  intros Ha Hb. unfold valuation.
  change (discount_factors (with_buy_year b cfg)) with (discount_factors cfg).
  change (discount_factors (with_buy_year (Z.of_nat (T cfg) + b) cfg))
    with (discount_factors cfg).
  cbn [with_buy_year T buy_year buyout capex].
  destruct (discount_factors cfg) as [dis|e] eqn:Hdis; [|reflexivity].
  cbn [bind].
  destruct (discount_factors_spec cfg dis Hdis) as [Ldis _].
  destruct (slices_negative _ _ a dis b Ha Ldis Hb) as [-> ->].
  rewrite (index_negative _ _ Hb). reflexivity.
Qed.

(** X14.  A negative [buy_year] counts periods from the end, as Python
    indices do: for [-T <= b < 0] the script gives with [buy_year = b]
    exactly the result (value or failure) it gives with
    [buy_year = T + b]. *)
Theorem negative_buy_year gauss jp jo lstsq cfg b :
  (- Z.of_nat (T cfg) <= b < 0)%Z ->
  script gauss jp jo lstsq (with_buy_year b cfg)
  = script gauss jp jo lstsq (with_buy_year (Z.of_nat (T cfg) + b) cfg).
Proof.
  intros Hb. unfold script.
  change (simulate (with_buy_year b cfg)) with (simulate cfg).
  change (simulate (with_buy_year (Z.of_nat (T cfg) + b) cfg))
    with (simulate cfg).
  destruct (simulate cfg jp jo (RandomState gauss 1)) as [st|e] eqn:Hst;
    [|reflexivity].
  cbn [bind].
  change (cash_flows (with_buy_year b cfg)) with (cash_flows cfg).
  change (cash_flows (with_buy_year (Z.of_nat (T cfg) + b) cfg))
    with (cash_flows cfg).
  destruct (cash_flows cfg (price st) (opex st)) as [cf|e] eqn:Hcf;
    [|reflexivity].
  cbn [bind].
  destruct (simulate_spec jp jo cfg _ _ Hst) as (_ & Hp & Ho & _).
  destruct (cash_flows_spec cfg _ _ _ Hp Ho Hcf) as [Ha _].
  rewrite (valuation_negative_index cfg lstsq _ _ _ b Ha Hb). reflexivity.
Qed.

Lemma negative_buy_year_witness :
  script flat_stream zero_fill zero_fill Sk.gram_solve
    (with_buy_year (- 2) small)
  = script flat_stream zero_fill zero_fill Sk.gram_solve
    (with_buy_year 1 small).
Proof.
  apply (negative_buy_year flat_stream zero_fill zero_fill Sk.gram_solve
           small (- 2)). simpl. lia.
Defined.

(** ** Degenerate regressions *)









(** ** How much of the stream matters *)

Lemma matrix_ext_entry n w a b :
  shape n w a -> shape n w b ->
  (forall i t, (i < n)%nat -> (t < w)%nat -> entry a i t = entry b i t) ->
  a = b.
Proof.
  intros Ha Hb H. apply (matrix_ext n w); auto.
  intros t Ht. apply (nth_ext _ _ 0 0).
  - rewrite !col_length. destruct Ha as [-> _], Hb as [-> _]. reflexivity.
  - intros i Hi. rewrite col_length in Hi.
    assert (Hi' : (i < n)%nat) by (destruct Ha as [<- _]; exact Hi).
    rewrite !col_nth; [apply H; assumption | |].
    + destruct Hb as [-> _]. exact Hi'.
    + exact Hi.
Qed.

(** X17.  The simulation reads the first [(T - 1) * 2 * n_sim] variates
    of the generator and nothing else of it: two generators that agree
    on those variates give the same price and opex matrices, whatever
    they would have produced afterwards (and whatever [np.empty]
    returned). *)
Theorem stream_prefix cfg jp jo jp' jo' g g' st st' :
  simulate cfg jp jo g = Ok st ->
  simulate cfg jp' jo' g' = Ok st' ->
  Np.consumed g' = Np.consumed g ->
  (forall k, (k < (T cfg - 1) * (n_sim cfg + n_sim cfg))%nat ->
     Np.normals g' (Np.consumed g + k)%nat
     = Np.normals g (Np.consumed g + k)%nat) ->
  price st' = price st /\ opex st' = opex st.
Proof.
  intros Hst Hst' Hc Hagree.
  destruct (simulate_spec jp jo cfg g st Hst)
    as (_ & Hp & Ho & _ & Hp0 & Ho0 & _).
  destruct (simulate_spec jp' jo' cfg g' st' Hst')
    as (_ & Hp' & Ho' & _ & Hp0' & Ho0' & _).
  assert (Hent : forall t, (t < T cfg)%nat ->
            forall i, (i < n_sim cfg)%nat ->
              entry (price st') i t = entry (price st) i t /\
              entry (opex st') i t = entry (opex st) i t).
  { induction t as [|t IH]; intros Ht i Hi.
    - rewrite !(entry_col0 _ _ _ _ i) by eassumption. split; reflexivity.
    - destruct (IH ltac:(lia) i Hi) as [IHp IHo].
      destruct (path_recurrence cfg jp jo g st Hst i (S t) Hi ltac:(lia))
        as [Rp Ro].
      destruct (path_recurrence cfg jp' jo' g' st' Hst' i (S t) Hi ltac:(lia))
        as [Rp' Ro'].
      replace (S t - 1)%nat with t in * by lia.
      assert (Hbound : (t * (n_sim cfg + n_sim cfg) + (n_sim cfg + n_sim cfg)
                        <= (T cfg - 1) * (n_sim cfg + n_sim cfg))%nat).
      { rewrite <- (Nat.mul_succ_l t). apply Nat.mul_le_mono_r. lia. }
      rewrite Hc in Rp', Ro'. rewrite IHp in Rp'. rewrite IHo in Ro'.
      set (q := (t * (n_sim cfg + n_sim cfg))%nat) in *.
      set (N := ((T cfg - 1) * (n_sim cfg + n_sim cfg))%nat) in *.
      replace (Np.consumed g + q + i)%nat
        with (Np.consumed g + (q + i))%nat in Rp, Rp' by lia.
      replace (Np.consumed g + q + n_sim cfg + i)%nat
        with (Np.consumed g + (q + n_sim cfg + i))%nat in Ro, Ro' by lia.
      rewrite Hagree in Rp' by lia. rewrite Hagree in Ro' by lia.
      split; [congruence|]. rewrite Ro in Ro'. congruence. }
  split; apply (matrix_ext_entry (n_sim cfg) (T cfg)); auto;
    intros i t Hi Ht; apply Hent; assumption.
Qed.

Lemma stream_prefix_witness :
  exists st st',
    simulate small zero_fill zero_fill (RandomState alternating 1) = Ok st /\
    simulate small zero_fill zero_fill
      {| Np.normals := fun k => if (k <? 8)%nat then alternating 1%Z k else 0;
         Np.consumed := 0 |} = Ok st' /\
    price st' = price st /\ opex st' = opex st.
Proof.
  destruct (simulate_defined small zero_fill zero_fill
              (RandomState alternating 1)) as [st Hst];
    [simpl; lia | simpl; lra | simpl; lra |].
  destruct (simulate_defined small zero_fill zero_fill
              {| Np.normals :=
                   fun k => if (k <? 8)%nat then alternating 1%Z k else 0;
                 Np.consumed := 0 |}) as [st' Hst'];
    [simpl; lia | simpl; lra | simpl; lra |].
  exists st, st'. split; [exact Hst|]. split; [exact Hst'|].
  apply (stream_prefix small zero_fill zero_fill zero_fill zero_fill
           _ _ st st' Hst Hst'); [reflexivity|].
  intros k Hk. cbn [Np.normals Np.consumed RandomState Nat.add].
  destruct (Nat.ltb_spec k 8); [reflexivity|]. simpl in Hk. lia.
Defined.
